(** * SimpleVector: a shallow embedding of [simple_vector.h]

    The class template [SimpleVector<Type>] is embedded as a record holding
    the owned array, [size_] and [capacity_].  Every member function becomes
    a function on that record.

    - [size_t] values are [N]; the arithmetic the source performs on them
      ([2 * capacity_], [size_ + 1], [++size_], [--size_]) wraps modulo
      [2^64] and the wrap-around is written out.
    - Pointers into the owned array are offsets ([nat]) from [begin()].
      Reading or writing a slot outside the allocated array is undefined
      behaviour in C++; the embedding returns [None] there, so a result
      [Some _] also says that every access stayed inside the array.
    - Storage allocation is assumed to succeed ([std::bad_alloc] is not
      modelled). *)

From Stdlib Require Import ZArith NArith Lia.
From stdpp Require Import base option list numbers gmap.

Local Open Scope N_scope.

(** ** [size_t] arithmetic *)

Definition SIZE_MODULUS : N := 2 ^ 64.

Definition size_add (a b : N) : N := (a + b) mod SIZE_MODULUS.
Definition size_mul (a b : N) : N := (a * b) mod SIZE_MODULUS.
Definition size_sub (a b : N) : N :=
  Z.to_N ((Z.of_N a - Z.of_N b) mod Z.of_N SIZE_MODULUS).

(** ** The element type

    What the template needs from [Type]: a default value ([Type{}]), the
    state a moved-from object is left in, [operator==] and [operator<],
    and what an array slot holds right after [new Type[n]] (indeterminate
    for scalar types, hence an arbitrary function of the slot).

    [trivially_copyable] is [std::is_trivially_copyable<Type>]: for such
    a type [<algorithm>] copies a range of pointers with one [memmove]
    instead of one assignment per element.  The two differ only on a
    call whose ranges overlap in the way the standard forbids. *)

Class Element (T : Type) := {
  default_value : T;
  moved_from : T → T;
  elt_eq : T → T → bool;
  elt_lt : T → T → bool;
  new_slot : nat → T;
  trivially_copyable : bool;
}.

Section Buffer.
Context {T : Type} `{Element T}.

(** *** Slots of an allocated array

    Modelled from the spec: [ArrayPtr<Type>::operator[]] (array_ptr.h is
    not among the sources) returns the slot at an offset of the owned
    region and checks no bounds. *)

Definition slot_read (buf : list T) (i : nat) : option T := buf !! i.

Definition slot_write (buf : list T) (i : nat) (x : T) : option (list T) :=
  if decide (i < length buf)%nat then Some (<[i := x]> buf) else None.

(** Modelled from the spec: [ArrayPtr<Type>] (array_ptr.h is not among the
    sources).  [ArrayPtr(n)] owns a fresh region of [n] slots; the spec
    says nothing about their initial contents, so slot [i] holds
    [new_slot i]. *)
Definition ArrayPtr_new (n : N) : list T := new_slot <$> seq 0 (N.to_nat n).

(** *** The loops of [<algorithm>] the class uses

    [for (; first != last; ++first) *first = value;] and the private
    [FillWithDefaultValue], which is the same loop with [Type{}].  The
    loop writes one slot per iteration and faults on the first slot
    outside the array, so [S (length buf)] iterations suffice. *)
Fixpoint fill_loop (fuel : nat) (buf : list T) (from to : nat) (x : T)
  : option (list T) :=
  if decide (from = to) then Some buf
  else match fuel with
       | O => None
       | S fuel' =>
           buf' ← slot_write buf from x;
           fill_loop fuel' buf' (S from) to x
       end.

Definition std_fill (buf : list T) (first last : nat) (value : T) :=
  fill_loop (S (length buf)) buf first last value.

Definition FillWithDefaultValue (buf : list T) (from to : nat) :=
  fill_loop (S (length buf)) buf from to default_value.

(** The forward loop: the destination slot receives the source slot and
    both pointers advance, [n] times, between two distinct arrays.
    [leave] is what the assignment leaves in the source slot: the
    identity for a copy, [moved_from] for a move. *)
Fixpoint transfer_fwd (leave : T → T) (n : nat)
    (src : list T) (first : nat) (dst : list T) (d_first : nat)
  : option (list T * list T) :=
  match n with
  | O => Some (src, dst)
  | S n' =>
      x ← slot_read src first;
      dst' ← slot_write dst d_first x;
      src' ← slot_write src first (leave x);
      transfer_fwd leave n' src' (S first) dst' (S d_first)
  end.

(** The backward loop: both pointers step back, then the destination
    slot receives the source slot, [n] times, between two distinct
    arrays; stepping a pointer below the start of its array is
    undefined. *)
Fixpoint transfer_bwd (leave : T → T) (n : nat)
    (src : list T) (last : nat) (dst : list T) (d_last : nat)
  : option (list T * list T) :=
  match n with
  | O => Some (src, dst)
  | S n' =>
      match last, d_last with
      | S l, S d =>
          x ← slot_read src l;
          dst' ← slot_write dst d x;
          src' ← slot_write src l (leave x);
          transfer_bwd leave n' src' l dst' d
      | _, _ => None
      end
  end.

(** The same two loops when source and destination lie in one array. *)
Fixpoint shift_fwd (leave : T → T) (n : nat)
    (buf : list T) (first d_first : nat) : option (list T) :=
  match n with
  | O => Some buf
  | S n' =>
      x ← slot_read buf first;
      buf1 ← slot_write buf d_first x;
      buf2 ← slot_write buf1 first (leave x);
      shift_fwd leave n' buf2 (S first) (S d_first)
  end.

Fixpoint shift_bwd (leave : T → T) (n : nat)
    (buf : list T) (last d_last : nat) : option (list T) :=
  match n with
  | O => Some buf
  | S n' =>
      match last, d_last with
      | S l, S d =>
          x ← slot_read buf l;
          buf1 ← slot_write buf d x;
          buf2 ← slot_write buf1 l (leave x);
          shift_bwd leave n' buf2 l d
      | _, _ => None
      end
  end.

(** A range [[first, last)] with [last] before [first] makes the loop
    [first != last] run off the array. *)
Definition range_len (first last : nat) : option nat :=
  if decide (first ≤ last)%nat then Some (last - first)%nat else None.

(** [std::copy(first, last, d_first)] into another array. *)
Definition std_copy (src : list T) (first last : nat)
    (dst : list T) (d_first : nat) : option (list T) :=
  n ← range_len first last;
  snd <$> transfer_fwd id n src first dst d_first.

(** [std::move(first, last, d_first)] into another array: the pair of
    the moved-from source array and the destination. *)
Definition std_move (src : list T) (first last : nat)
    (dst : list T) (d_first : nat) : option (list T * list T) :=
  n ← range_len first last;
  transfer_fwd moved_from n src first dst d_first.

(** [std::copy_backward(first, last, d_last)] into another array. *)
Definition std_copy_backward (src : list T) (first last : nat)
    (dst : list T) (d_last : nat) : option (list T) :=
  n ← range_len first last;
  snd <$> transfer_bwd id n src last dst d_last.

(** [std::move_backward(first, last, d_last)] into another array. *)
Definition std_move_backward (src : list T) (first last : nat)
    (dst : list T) (d_last : nat) : option (list T * list T) :=
  n ← range_len first last;
  transfer_bwd moved_from n src last dst d_last.

(** [std::move(first, last, d_first)] inside one array. *)
Definition std_move_within (buf : list T) (first last d_first : nat) :=
  n ← range_len first last;
  shift_fwd moved_from n buf first d_first.

(** [memmove] of [n] slots from offset [first] to offset [d_first] of
    one array: the destination receives the source as it was before the
    call.  The library does not call it for an empty range. *)
Definition memmove_within (buf : list T) (first n d_first : nat)
  : option (list T) :=
  if decide (n = 0)%nat then Some buf
  else if decide (first + n ≤ length buf ∧ d_first + n ≤ length buf)%nat then
    Some (take d_first buf ++ take n (drop first buf)
            ++ drop (d_first + n) buf)
  else None.

(** [std::copy_backward(first, last, d_last)] inside one array.  The
    standard leaves the call undefined when [d_last] lies in
    [(first, last]], and there the outcome depends on how the library
    copies: for a trivially copyable [Type] it is one [memmove] to the
    range that ends at [d_last] (which starts below the array when the
    range is longer than [d_last]); otherwise it is the
    element-by-element loop, last element first. *)
Definition std_copy_backward_within (buf : list T) (first last d_last : nat) :=
  n ← range_len first last;
  if trivially_copyable (T := T) then
    if decide (n ≤ d_last)%nat then memmove_within buf first n (d_last - n)
    else None
  else shift_bwd id n buf last d_last.

(** [std::move_backward(first, last, d_last)] inside one array. *)
Definition std_move_backward_within (buf : list T) (first last d_last : nat) :=
  n ← range_len first last;
  shift_bwd moved_from n buf last d_last.

(** The slot a within-array shift vacates.  Shifting left, the last
    source slot keeps what the transfer left there; shifting right, the
    first one does.  With nothing to shift the slot keeps its value. *)
Fixpoint vacated_fwd (leave : T → T) (a : T) (seg : list T) : T :=
  match seg with
  | [] => a
  | y :: seg' => vacated_fwd leave (leave y) seg'
  end.

Definition vacated_bwd (leave : T → T) (b : T) (seg : list T) : T :=
  match seg with
  | [] => b
  | y :: _ => leave y
  end.

End Buffer.

(** ** The capacity hint *)

Record ReserveProxyObj := { capacity_to_reserve_ : N }.

Definition ReserveProxyObj_GetCapacity (object : ReserveProxyObj) : N :=
  capacity_to_reserve_ object.

(** The free function [Reserve(capacity_to_reserve)]. *)
Definition MakeReserve (capacity_to_reserve : N) : ReserveProxyObj :=
  {| capacity_to_reserve_ := capacity_to_reserve |}.

(** ** The class *)

Record SimpleVector (T : Type) := {
  array_ptr_ : list T;
  size_ : N;
  capacity_ : N;
}.
Arguments array_ptr_ {T} _.
Arguments size_ {T} _.
Arguments capacity_ {T} _.

(** What [At] hands back: a reference to a slot (its offset and the value
    stored there), or the exception [std::out_of_range]. *)
Inductive access (T : Type) :=
  | Slot (index : nat) (value : T)
  | ThrowOutOfRange.
Arguments Slot {T} _ _.
Arguments ThrowOutOfRange {T}.

Section Members.
Context {T : Type} `{Element T}.

Local Abbreviation vec := (SimpleVector T).

Definition GetSize (v : vec) : N := size_ v.
Definition GetCapacity (v : vec) : N := capacity_ v.
Definition IsEmpty (v : vec) : bool := bool_decide (size_ v = 0).

(** Iterators are offsets from the start of the owned array. *)
Definition begin_ (v : vec) : nat := 0.
Definition end_ (v : vec) : nat := (0 + N.to_nat (size_ v))%nat.
Definition cbegin (v : vec) : nat := 0.
Definition cend (v : vec) : nat := (0 + N.to_nat (size_ v))%nat.

(** [swap(other)] on two distinct objects: the pair of [*this] and
    [other] afterwards. *)
Definition swap (this other : vec) : vec * vec :=
  ({| array_ptr_ := array_ptr_ other;
      size_ := size_ other; capacity_ := capacity_ other |},
   {| array_ptr_ := array_ptr_ this;
      size_ := size_ this; capacity_ := capacity_ this |}).

(** [SimpleVector() noexcept = default] *)
Definition SimpleVector_default : vec :=
  {| array_ptr_ := []; size_ := 0; capacity_ := 0 |}.

(** [explicit SimpleVector(size_t size)] *)
Definition SimpleVector_sized (size : N) : option vec :=
  let array_ptr := ArrayPtr_new size in
  array_ptr ← FillWithDefaultValue array_ptr 0 (N.to_nat size);
  Some {| array_ptr_ := array_ptr; size_ := size; capacity_ := size |}.

(** [SimpleVector(size_t size, const Type& value)] *)
Definition SimpleVector_filled (size : N) (value : T) : option vec :=
  let array_ptr := ArrayPtr_new size in
  array_ptr ← std_fill array_ptr 0 (N.to_nat size) value;
  Some {| array_ptr_ := array_ptr; size_ := size; capacity_ := size |}.

(** [SimpleVector(std::initializer_list<Type> init)] *)
Definition SimpleVector_init (init : list T) : option vec :=
  new_vector ← SimpleVector_sized (N.of_nat (length init));
  buf ← std_copy init 0 (length init) (array_ptr_ new_vector) (begin_ new_vector);
  Some (fst (swap SimpleVector_default
               {| array_ptr_ := buf; size_ := size_ new_vector;
                  capacity_ := capacity_ new_vector |})).

(** [SimpleVector(const SimpleVector& other)] *)
Definition SimpleVector_copy (other : vec) : option vec :=
  let array_ptr := ArrayPtr_new (size_ other) in
  array_ptr ← std_copy (array_ptr_ other) (begin_ other) (end_ other) array_ptr 0;
  Some {| array_ptr_ := array_ptr;
          size_ := size_ other; capacity_ := size_ other |}.

(** Modelled from the spec: move construction and move assignment of
    [ArrayPtr] (array_ptr.h is not among the sources) transfer the owned
    region and leave the source holding no storage. *)
Definition ArrayPtr_move (other : list T) : list T * list T := (other, []).

(** [SimpleVector(SimpleVector&& other) noexcept]: the new object and
    [other] afterwards. *)
Definition SimpleVector_move (other : vec) : vec * vec :=
  let '(array_ptr, other_ptr) := ArrayPtr_move (array_ptr_ other) in
  ({| array_ptr_ := array_ptr;
      size_ := size_ other; capacity_ := capacity_ other |},
   {| array_ptr_ := other_ptr; size_ := 0; capacity_ := 0 |}).

(** [Clear()] *)
Definition Clear (v : vec) : vec :=
  {| array_ptr_ := array_ptr_ v; size_ := 0; capacity_ := capacity_ v |}.

(** [operator=(SimpleVector&& rhs)] when [this != &rhs]: the pair of
    [*this] and [rhs] afterwards. *)
Definition move_assign_distinct (this rhs : vec) : vec * vec :=
  let '(array_ptr, rhs_ptr) := ArrayPtr_move (array_ptr_ rhs) in
  ({| array_ptr_ := array_ptr;
      size_ := size_ rhs; capacity_ := capacity_ rhs |},
   {| array_ptr_ := rhs_ptr; size_ := 0; capacity_ := 0 |}).

(** [operator=(const SimpleVector& rhs)] when [this != &rhs]. *)
Definition copy_assign_distinct (this rhs : vec) : option vec :=
  if IsEmpty rhs then
    let this := Clear this in
    Some {| array_ptr_ := array_ptr_ this; size_ := 0; capacity_ := 0 |}
  else
    rhs_copy ← SimpleVector_copy rhs;
    Some (fst (swap this rhs_copy)).

(** [operator[]] performs no check: touching a slot outside the array is
    undefined. *)
Definition subscript (v : vec) (index : N) : option T :=
  slot_read (array_ptr_ v) (N.to_nat index).

(** [At(index)]; the vector is passed through unchanged. *)
Definition At (v : vec) (index : N) : option (vec * access T) :=
  if decide (index < size_ v) then
    x ← slot_read (array_ptr_ v) (N.to_nat index);
    Some (v, Slot (N.to_nat index) x)
  else Some (v, ThrowOutOfRange).

(** [Resize(new_size)] *)
Definition Resize (v : vec) (new_size : N) : option vec :=
  if decide (size_ v < new_size) then
    if decide (capacity_ v < new_size) then
      let max_size := N.max (size_mul 2 (capacity_ v)) new_size in
      let array_bigger := ArrayPtr_new max_size in
      '(_, array_bigger) ←
        std_move (array_ptr_ v) (begin_ v) (end_ v) array_bigger 0;
      array_bigger ←
        FillWithDefaultValue array_bigger
          (N.to_nat (size_ v)) (N.to_nat max_size);
      Some {| array_ptr_ := array_bigger;
              size_ := new_size; capacity_ := max_size |}
    else
      buf ← FillWithDefaultValue (array_ptr_ v) (end_ v) (N.to_nat new_size);
      Some {| array_ptr_ := buf;
              size_ := new_size; capacity_ := capacity_ v |}
  else
    Some {| array_ptr_ := array_ptr_ v;
            size_ := new_size; capacity_ := capacity_ v |}.

(** [PushBack(const Type& item)] *)
Definition PushBack_copy (v : vec) (item : T) : option vec :=
  if decide (capacity_ v = 0) then
    new_vector ← SimpleVector_sized 1;
    buf ← slot_write (array_ptr_ new_vector) 0 item;
    Some (fst (swap v {| array_ptr_ := buf; size_ := size_ new_vector;
                         capacity_ := capacity_ new_vector |}))
  else if decide (capacity_ v = size_ v) then
    new_vector ← SimpleVector_sized (size_mul 2 (capacity_ v));
    buf ← std_copy (array_ptr_ v) (begin_ v) (end_ v)
            (array_ptr_ new_vector) (begin_ new_vector);
    buf ← slot_write buf (N.to_nat (size_ v)) item;
    Some (fst (swap v {| array_ptr_ := buf; size_ := size_add (size_ v) 1;
                         capacity_ := capacity_ new_vector |}))
  else
    buf ← slot_write (array_ptr_ v) (N.to_nat (size_ v)) item;
    Some {| array_ptr_ := buf; size_ := size_add (size_ v) 1;
            capacity_ := capacity_ v |}.

(** [PushBack(Type&& item)] *)
Definition PushBack_move (v : vec) (item : T) : option vec :=
  if decide (capacity_ v = 0) then
    new_vector ← SimpleVector_sized 1;
    buf ← slot_write (array_ptr_ new_vector) 0 item;
    Some (fst (move_assign_distinct v
                 {| array_ptr_ := buf; size_ := size_ new_vector;
                    capacity_ := capacity_ new_vector |}))
  else if decide (size_ v = capacity_ v) then
    new_vector ← SimpleVector_sized (size_mul 2 (capacity_ v));
    '(_, buf) ← std_move (array_ptr_ v) (begin_ v) (end_ v)
                  (array_ptr_ new_vector) (begin_ new_vector);
    buf ← slot_write buf (N.to_nat (size_ v)) item;
    Some (fst (move_assign_distinct v
                 {| array_ptr_ := buf; size_ := size_add (size_ v) 1;
                    capacity_ := capacity_ new_vector |}))
  else
    buf ← slot_write (array_ptr_ v) (N.to_nat (size_ v)) item;
    Some {| array_ptr_ := buf; size_ := size_add (size_ v) 1;
            capacity_ := capacity_ v |}.

(** [Insert(ConstIterator pos, const Type& value)]: the vector afterwards
    and the returned iterator. *)
Definition Insert_copy (v : vec) (pos : nat) (value : T)
  : option (vec * nat) :=
  let pos_distance := (pos - cbegin v)%nat in
  v' ←
    (if decide (capacity_ v = 0) then
       new_vector ← SimpleVector_sized 1;
       buf ← slot_write (array_ptr_ new_vector) 0 value;
       Some (fst (swap v {| array_ptr_ := buf; size_ := size_ new_vector;
                            capacity_ := capacity_ new_vector |}))
     else if decide (capacity_ v = size_ v) then
       new_vector ← SimpleVector_sized (size_mul 2 (capacity_ v));
       buf ← std_copy (array_ptr_ v) (begin_ v) (begin_ v + pos_distance)
               (array_ptr_ new_vector) (begin_ new_vector);
       buf ← slot_write buf pos_distance value;
       buf ← std_copy_backward (array_ptr_ v)
               (begin_ v + pos_distance) (end_ v)
               buf (begin_ new_vector + N.to_nat (size_ v) + 1);
       Some (fst (swap v {| array_ptr_ := buf;
                            size_ := size_add (size_ v) 1;
                            capacity_ := capacity_ new_vector |}))
     else
       buf ← std_copy_backward_within (array_ptr_ v)
               (begin_ v + pos_distance) (end_ v) (0 + pos_distance + 1);
       buf ← slot_write buf pos_distance value;
       Some {| array_ptr_ := buf; size_ := size_add (size_ v) 1;
               capacity_ := capacity_ v |});
  Some (v', pos_distance).

(** [Insert(ConstIterator pos, Type&& value)] *)
Definition Insert_move (v : vec) (pos : nat) (value : T)
  : option (vec * nat) :=
  let pos_distance := (pos - cbegin v)%nat in
  v' ←
    (if decide (capacity_ v = 0) then
       new_vector ← SimpleVector_sized 1;
       buf ← slot_write (array_ptr_ new_vector) 0 value;
       Some (fst (move_assign_distinct v
                    {| array_ptr_ := buf; size_ := size_ new_vector;
                       capacity_ := capacity_ new_vector |}))
     else if decide (capacity_ v = size_ v) then
       new_vector ← SimpleVector_sized (size_mul 2 (capacity_ v));
       '(old, buf) ← std_move (array_ptr_ v)
                       (begin_ v) (begin_ v + pos_distance)
                       (array_ptr_ new_vector) (begin_ new_vector);
       buf ← slot_write buf pos_distance value;
       '(_, buf) ← std_move_backward old
                     (begin_ v + pos_distance) (end_ v)
                     buf (begin_ new_vector + N.to_nat (size_ v) + 1);
       Some (fst (move_assign_distinct v
                    {| array_ptr_ := buf; size_ := size_add (size_ v) 1;
                       capacity_ := capacity_ new_vector |}))
     else
       buf ← std_move_backward_within (array_ptr_ v)
               (begin_ v + pos_distance) (end_ v)
               (0 + N.to_nat (size_ v) + 1);
       buf ← slot_write buf pos_distance value;
       Some {| array_ptr_ := buf; size_ := size_add (size_ v) 1;
               capacity_ := capacity_ v |});
  Some (v', pos_distance).

(** [PopBack()] *)
Definition PopBack (v : vec) : vec :=
  if negb (IsEmpty v) then
    {| array_ptr_ := array_ptr_ v; size_ := size_sub (size_ v) 1;
       capacity_ := capacity_ v |}
  else v.

(** [Erase(ConstIterator pos)]: the vector afterwards and the returned
    iterator. *)
Definition Erase (v : vec) (pos : nat) : option (vec * nat) :=
  let pos_distance := (pos - cbegin v)%nat in
  buf ← std_move_within (array_ptr_ v)
          (begin_ v + pos_distance + 1) (end_ v) pos_distance;
  Some ({| array_ptr_ := buf; size_ := size_sub (size_ v) 1;
           capacity_ := capacity_ v |}, pos_distance).

(** [Reserve(new_capacity)] *)
Definition Reserve (v : vec) (new_capacity : N) : option vec :=
  if decide (capacity_ v < new_capacity) then
    new_vector ← SimpleVector_sized new_capacity;
    '(_, buf) ← std_move (array_ptr_ v) (begin_ v) (end_ v)
                  (array_ptr_ new_vector) (begin_ new_vector);
    Some (fst (swap v {| array_ptr_ := buf; size_ := size_ v;
                         capacity_ := capacity_ new_vector |}))
  else Some v.

(** [SimpleVector(ReserveProxyObj object)]: the members start from their
    default initialisers and the member function [Reserve] runs on them. *)
Definition SimpleVector_reserved (object : ReserveProxyObj) : option vec :=
  Reserve SimpleVector_default (ReserveProxyObj_GetCapacity object).

End Members.

(** ** Two-object operations with their address guard

    [operator=] compares [this] with [&rhs], so these operations are
    stated on a store of objects indexed by address; [this] and the
    argument may be the same object. *)

Section Objects.
Context {T : Type} `{Element T}.

Definition swap_at (this other : positive)
    (σ : gmap positive (SimpleVector T)) : option (gmap positive (SimpleVector T)) :=
  a ← σ !! this;
  b ← σ !! other;
  let '(a', b') := swap a b in
  Some (<[this := a']> (<[other := b']> σ)).

(** [SimpleVector& operator=(const SimpleVector& rhs)] *)
Definition copy_assign (this rhs : positive)
    (σ : gmap positive (SimpleVector T)) : option (gmap positive (SimpleVector T)) :=
  if decide (this ≠ rhs) then
    a ← σ !! this;
    b ← σ !! rhs;
    a' ← copy_assign_distinct a b;
    Some (<[this := a']> σ)
  else Some σ.

(** [SimpleVector& operator=(SimpleVector&& rhs) noexcept] *)
Definition move_assign (this rhs : positive)
    (σ : gmap positive (SimpleVector T)) : option (gmap positive (SimpleVector T)) :=
  if decide (this ≠ rhs) then
    a ← σ !! this;
    b ← σ !! rhs;
    let '(a', b') := move_assign_distinct a b in
    Some (<[this := a']> (<[rhs := b']> σ))
  else Some σ.

End Objects.

(** ** Comparison operators *)

Section Comparisons.
Context {T : Type} `{Element T}.

(** The slots [[first, last)] of an array, read in order. *)
Definition slots (buf : list T) (first last : nat) : option (list T) :=
  n ← range_len first last;
  if decide (last ≤ length buf)%nat then Some (take n (drop first buf))
  else None.

(** [std::equal(first1, last1, first2, last2)] *)
Fixpoint std_equal (l1 l2 : list T) : bool :=
  match l1, l2 with
  | [], [] => true
  | x :: l1', y :: l2' => elt_eq x y && std_equal l1' l2'
  | _, _ => false
  end.

(** [std::lexicographical_compare(first1, last1, first2, last2)] *)
Fixpoint std_lexicographical_compare (l1 l2 : list T) : bool :=
  match l1, l2 with
  | x :: l1', y :: l2' =>
      if elt_lt x y then true
      else if elt_lt y x then false
      else std_lexicographical_compare l1' l2'
  | [], _ :: _ => true
  | _, [] => false
  end.

Definition op_eq (lhs rhs : SimpleVector T) : option bool :=
  l ← slots (array_ptr_ lhs) (begin_ lhs) (end_ lhs);
  r ← slots (array_ptr_ rhs) (begin_ rhs) (end_ rhs);
  Some (std_equal l r).

Definition op_ne (lhs rhs : SimpleVector T) : option bool :=
  negb <$> op_eq lhs rhs.

Definition op_lt (lhs rhs : SimpleVector T) : option bool :=
  l ← slots (array_ptr_ lhs) (begin_ lhs) (end_ lhs);
  r ← slots (array_ptr_ rhs) (begin_ rhs) (end_ rhs);
  Some (std_lexicographical_compare l r).

Definition op_gt (lhs rhs : SimpleVector T) : option bool :=
  op_lt rhs lhs.

Definition op_le (lhs rhs : SimpleVector T) : option bool :=
  negb <$> op_gt lhs rhs.

Definition op_ge (lhs rhs : SimpleVector T) : option bool :=
  negb <$> op_lt lhs rhs.

End Comparisons.

(** ** The logical view used to state the properties *)

Section View.
Context {T : Type}.

(** The live elements, offsets [[0, size_)]. *)
Definition elements (v : SimpleVector T) : list T :=
  take (N.to_nat (size_ v)) (array_ptr_ v).

(** The class invariant together with what makes the object
    representable: the recorded capacity is backed by allocated slots
    and fits a [size_t]. *)
Definition invariant (v : SimpleVector T) : Prop :=
  0 ≤ size_ v ∧ size_ v ≤ capacity_ v.

Definition well_formed (v : SimpleVector T) : Prop :=
  invariant v
  ∧ (N.to_nat (capacity_ v) ≤ length (array_ptr_ v))%nat
  ∧ capacity_ v < SIZE_MODULUS.

End View.

(** ** Repeated calls and reference notions *)

Section Reference.
Context {T : Type} `{Element T}.

(** [for (x : items) v.PushBack(x);] with either overload. *)
Fixpoint push_all (push : SimpleVector T → T → option (SimpleVector T))
    (v : SimpleVector T) (items : list T) : option (SimpleVector T) :=
  match items with
  | [] => Some v
  | x :: items' => v' ← push v x; push_all push v' items'
  end.

(** Element-wise equality in order, through the element type's
    [operator==]. *)
Definition elementwise_equal (l1 l2 : list T) : Prop :=
  length l1 = length l2
  ∧ ∀ i x y, l1 !! i = Some x → l2 !! i = Some y → elt_eq x y = true.

(** Lexicographic less-than through the element type's [operator<]:
    the sequences are equivalent on the first [k] positions, and then
    either the left one ends while the right one goes on, or the left
    element at [k] is less than the right one. *)
Definition lexicographic_less (l1 l2 : list T) : Prop :=
  ∃ k,
    (∀ i x y, (i < k)%nat → l1 !! i = Some x → l2 !! i = Some y →
              elt_lt x y = false ∧ elt_lt y x = false)
    ∧ ((k = length l1 ∧ (k < length l2)%nat)
       ∨ (∃ x y, l1 !! k = Some x ∧ l2 !! k = Some y ∧ elt_lt x y = true)).

End Reference.

(** The capacities the doubling policy can produce. *)
Definition power_of_two_or_zero (c : N) : Prop := c = 0 ∨ ∃ k, c = 2 ^ k.

(** ** [SimpleVector<int>]

    Moving an [int] copies it; a slot of [new int[n]] is indeterminate and
    is given a recognisable junk value. *)

#[export] Instance int_Element : Element Z := {|
  default_value := 0%Z;
  moved_from := id;
  elt_eq := Z.eqb;
  elt_lt := Z.ltb;
  new_slot := λ i, (-1 - Z.of_nat i)%Z;
  trivially_copyable := true;
|}.

(** The vector [{10, 20, 30}] built by three [PushBack] calls on an empty
    vector: size 3, capacity 4, one spare slot holding [int{}]. *)
Definition v_10_20_30 : SimpleVector Z :=
  {| array_ptr_ := [10; 20; 30; 0]%Z; size_ := 3; capacity_ := 4 |}.

(** A full vector [{10, 20, 30, 40}]: size 4, capacity 4. *)
Definition v_10_20_30_40 : SimpleVector Z :=
  {| array_ptr_ := [10; 20; 30; 40]%Z; size_ := 4; capacity_ := 4 |}.

(** [{10, 20, 31}] with size 3 and capacity 3. *)
Definition v_10_20_31 : SimpleVector Z :=
  {| array_ptr_ := [10; 20; 31]%Z; size_ := 3; capacity_ := 3 |}.

(** Two objects: [{10, 20, 30}] at address 1, an empty vector at
    address 2. *)
Definition two_objects : gmap positive (SimpleVector Z) :=
  <[1%positive := v_10_20_30]> (<[2%positive := SimpleVector_default]> ∅).

(** * Facts about [size_t] arithmetic *)

Lemma SIZE_MODULUS_gt_1 : 1 < SIZE_MODULUS.
Proof. reflexivity. Qed.

Lemma size_add_small a b : a + b < SIZE_MODULUS → size_add a b = a + b.
Proof. intros. unfold size_add. by apply N.mod_small. Qed.

Lemma size_mul_small a b : a * b < SIZE_MODULUS → size_mul a b = a * b.
Proof. intros. unfold size_mul. by apply N.mod_small. Qed.

Lemma size_sub_small a b : b ≤ a → a < SIZE_MODULUS → size_sub a b = a - b.
Proof.
  intros Hle Hlt. unfold size_sub.
  rewrite Z.mod_small; [lia|].
  unfold SIZE_MODULUS in *. lia.
Qed.

(** * Facts about the array loops *)

Section BufferFacts.
Context {T : Type} `{Element T}.
Implicit Types (buf pre seg old post src dst : list T) (x y : T).

Lemma slot_read_middle pre x post :
  slot_read (pre ++ x :: post) (length pre) = Some x.
Proof. unfold slot_read. by apply list_lookup_middle. Qed.

Lemma slot_write_middle pre x y post :
  slot_write (pre ++ x :: post) (length pre) y = Some (pre ++ y :: post).
Proof.
  unfold slot_write. rewrite decide_True.
  - by rewrite insert_app_r_alt, Nat.sub_diag.
  - rewrite length_app. simpl. lia.
Qed.

Lemma slot_write_at pre x y post i :
  i = length pre →
  slot_write (pre ++ x :: post) i y = Some (pre ++ y :: post).
Proof. intros ->. apply slot_write_middle. Qed.

Lemma take_app_S pre x post n :
  n = length pre → take (S n) (pre ++ x :: post) = pre ++ [x].
Proof.
  intros ->. rewrite cons_middle, app_assoc.
  apply take_app_length'. rewrite length_app. simpl. lia.
Qed.

Lemma drop_app_S pre x post n k :
  n = length pre → drop (S n + k) (pre ++ x :: post) = drop k post.
Proof.
  intros ->. rewrite cons_middle, app_assoc.
  rewrite drop_app_ge by (rewrite length_app; simpl; lia).
  f_equal. rewrite length_app. simpl. lia.
Qed.

Lemma length_inserted buf pos x post :
  (pos ≤ length buf)%nat →
  length (take pos buf ++ x :: drop pos buf ++ post)
  = (S (length buf) + length post)%nat.
Proof.
  intros. rewrite length_app, length_take_le by done. cbn [length].
  rewrite length_app, length_drop. lia.
Qed.

Lemma take_inserted buf pos x post n :
  (pos ≤ length buf)%nat → n = S (length buf) →
  take n (take pos buf ++ x :: drop pos buf ++ post)
  = take pos buf ++ x :: drop pos buf.
Proof.
  intros Hpos ->. rewrite app_comm_cons, app_assoc.
  apply take_app_length'.
  rewrite length_app, length_take_le by done. cbn [length].
  rewrite length_drop. lia.
Qed.

Lemma slot_write_Some buf i x :
  (i < length buf)%nat → slot_write buf i x = Some (<[i := x]> buf).
Proof. intros. unfold slot_write. by rewrite decide_True. Qed.

Lemma split3 buf i n :
  take i buf ++ take n (drop i buf) ++ drop (i + n) buf = buf.
Proof. by rewrite <- drop_drop, !take_drop. Qed.

Lemma length_segment buf i n :
  (i + n ≤ length buf)%nat → length (take n (drop i buf)) = n.
Proof. intros. rewrite length_take_le; [done|]. rewrite length_drop. lia. Qed.

Lemma fill_loop_spec x old : ∀ fuel pre post,
  (length old ≤ fuel)%nat →
  fill_loop fuel (pre ++ old ++ post) (length pre) (length pre + length old) x
  = Some (pre ++ replicate (length old) x ++ post).
Proof.
  induction old as [|o old IH]; intros fuel pre post Hfuel.
  - destruct fuel; simpl; rewrite decide_True by lia; done.
  - destruct fuel as [|fuel]; [simpl in Hfuel; lia|].
    cbn [fill_loop]. rewrite decide_False by (simpl; lia).
    cbn [app]. rewrite slot_write_middle. cbn [mbind option_bind].
    specialize (IH fuel (pre ++ [x]) post).
    rewrite length_app in IH. cbn [length] in IH.
    rewrite <- !app_assoc in IH. cbn [app] in IH.
    replace (length pre + 1)%nat with (S (length pre)) in IH by lia.
    replace (length pre + length (o :: old))%nat
      with (S (length pre) + length old)%nat by (simpl; lia).
    rewrite IH by (simpl in Hfuel; lia). done.
Qed.

Lemma transfer_fwd_spec leave seg : ∀ s1 s2 d1 old d2,
  length old = length seg →
  transfer_fwd leave (length seg)
    (s1 ++ seg ++ s2) (length s1) (d1 ++ old ++ d2) (length d1)
  = Some (s1 ++ (leave <$> seg) ++ s2, d1 ++ seg ++ d2).
Proof.
  induction seg as [|y seg IH]; intros s1 s2 d1 old d2 Hlen.
  - destruct old; [done|discriminate].
  - destruct old as [|o old]; [discriminate|].
    cbn [transfer_fwd length app].
    rewrite slot_read_middle. cbn [mbind option_bind].
    rewrite !slot_write_middle. cbn [mbind option_bind].
    specialize (IH (s1 ++ [leave y]) s2 (d1 ++ [y]) old d2).
    rewrite !length_app in IH. cbn [length] in IH.
    rewrite <- !app_assoc in IH. cbn [app] in IH.
    replace (length s1 + 1)%nat with (S (length s1)) in IH by lia.
    replace (length d1 + 1)%nat with (S (length d1)) in IH by lia.
    rewrite IH by (simpl in Hlen; lia). done.
Qed.

Lemma transfer_bwd_spec leave seg : ∀ s1 s2 d1 old d2,
  length old = length seg →
  transfer_bwd leave (length seg)
    (s1 ++ seg ++ s2) (length s1 + length seg)
    (d1 ++ old ++ d2) (length d1 + length old)
  = Some (s1 ++ (leave <$> seg) ++ s2, d1 ++ seg ++ d2).
Proof.
  induction seg as [|y seg IH] using rev_ind; intros s1 s2 d1 old d2 Hlen.
  - destruct old; [done|discriminate].
  - destruct old as [|o old _] using rev_ind;
      [rewrite length_app in Hlen; simpl in Hlen; lia|].
    rewrite !length_app in *. cbn [length] in *.
    replace (length seg + 1)%nat with (S (length seg)) by lia.
    replace (length s1 + S (length seg))%nat
      with (S (length s1 + length seg)) by lia.
    replace (length d1 + (length old + 1))%nat
      with (S (length d1 + length old)) by lia.
    cbn [transfer_bwd].
    rewrite <- !app_assoc. cbn [app].
    rewrite <- (length_app s1 seg), <- (length_app d1 old).
    rewrite (app_assoc s1 seg), (app_assoc d1 old).
    rewrite slot_read_middle. cbn [mbind option_bind].
    rewrite !slot_write_middle. cbn [mbind option_bind].
    rewrite <- !app_assoc, !length_app.
    rewrite (IH s1 (leave y :: s2) d1 old (y :: d2)) by lia.
    rewrite fmap_app. cbn. rewrite <- !app_assoc. done.
Qed.

Lemma shift_fwd_spec leave seg : ∀ pre a post,
  shift_fwd leave (length seg)
    (pre ++ a :: seg ++ post) (S (length pre)) (length pre)
  = Some (pre ++ seg ++ vacated_fwd leave a seg :: post).
Proof.
  induction seg as [|y seg IH]; intros pre a post; [done|].
  cbn [shift_fwd length app vacated_fwd].
  replace (pre ++ a :: y :: seg ++ post)
    with ((pre ++ [a]) ++ y :: seg ++ post) by by rewrite <- app_assoc.
  replace (S (length pre)) with (length (pre ++ [a]))
    by (rewrite length_app; simpl; lia).
  rewrite slot_read_middle. cbn [mbind option_bind].
  rewrite <- app_assoc. cbn [app].
  rewrite slot_write_middle. cbn [mbind option_bind].
  replace (pre ++ y :: y :: seg ++ post)
    with ((pre ++ [y]) ++ y :: seg ++ post) by by rewrite <- app_assoc.
  replace (length (pre ++ [a])) with (length (pre ++ [y]))
    by (rewrite !length_app; done).
  rewrite slot_write_middle. cbn [mbind option_bind].
  rewrite (IH (pre ++ [y]) (leave y) post).
  by rewrite <- app_assoc.
Qed.

Lemma shift_bwd_spec leave seg : ∀ pre b post,
  shift_bwd leave (length seg)
    (pre ++ seg ++ b :: post)
    (length pre + length seg) (S (length pre + length seg))
  = Some (pre ++ vacated_bwd leave b seg :: seg ++ post).
Proof.
  induction seg as [|y seg IH] using rev_ind; intros pre b post; [done|].
  rewrite length_app. cbn [length].
  replace (length seg + 1)%nat with (S (length seg)) by lia.
  replace (length pre + S (length seg))%nat
    with (S (length pre + length seg)) by lia.
  cbn [shift_bwd].
  rewrite <- (length_app pre seg).
  rewrite <- app_assoc. cbn [app]. rewrite (app_assoc pre seg).
  rewrite slot_read_middle. cbn [mbind option_bind].
  replace ((pre ++ seg) ++ y :: b :: post)
    with (((pre ++ seg) ++ [y]) ++ b :: post) by by rewrite <- (app_assoc _ [y]).
  replace (S (length (pre ++ seg))) with (length ((pre ++ seg) ++ [y]))
    by (rewrite (length_app _ [y]); simpl; lia).
  rewrite slot_write_middle. cbn [mbind option_bind].
  rewrite <- (app_assoc _ [y]). cbn [app].
  rewrite slot_write_middle. cbn [mbind option_bind].
  rewrite <- app_assoc, length_app.
  replace (length ((pre ++ seg) ++ [y])) with (S (length pre + length seg))
    by (rewrite !length_app; simpl; lia).
  rewrite (IH pre (leave y) (y :: post)).
  f_equal. f_equal.
  rewrite <- app_assoc. cbn [app].
  destruct seg; done.
Qed.

(** What a transfer leaves in its source never reaches the
    destination. *)
Lemma transfer_fwd_snd leave1 leave2 n : ∀ src1 src2 first dst d_first,
  length src1 = length src2 →
  (∀ i, (first ≤ i)%nat → src1 !! i = src2 !! i) →
  snd <$> transfer_fwd leave1 n src1 first dst d_first
  = snd <$> transfer_fwd leave2 n src2 first dst d_first.
Proof.
  induction n as [|n IH]; intros src1 src2 first dst d_first Hlen Hagree;
    [done|].
  cbn [transfer_fwd]. unfold slot_read.
  rewrite <- (Hagree first) by lia.
  destruct (src1 !! first) as [x|] eqn:Hx; [|done].
  cbn [mbind option_bind].
  destruct (slot_write dst d_first x) as [dst'|]; [|done].
  cbn [mbind option_bind].
  pose proof (lookup_lt_Some _ _ _ Hx) as Hlt.
  rewrite !slot_write_Some by lia. cbn [mbind option_bind].
  apply IH.
  - by rewrite !length_insert.
  - intros i Hi. rewrite !list_lookup_insert_ne by lia. apply Hagree. lia.
Qed.

Lemma std_move_snd src first last dst d_first :
  snd <$> std_move src first last dst d_first
  = std_copy src first last dst d_first.
Proof.
  unfold std_move, std_copy. destruct (range_len first last); [|done].
  cbn [mbind option_bind]. by apply transfer_fwd_snd.
Qed.

(** The loops on arbitrary in-range arguments. *)

Lemma FillWithDefaultValue_spec buf from to :
  (from ≤ to)%nat → (to ≤ length buf)%nat →
  FillWithDefaultValue buf from to
  = Some (take from buf ++ replicate (to - from) default_value ++ drop to buf).
Proof.
  intros Hft Hto. unfold FillWithDefaultValue.
  pose proof (fill_loop_spec default_value (take (to - from) (drop from buf))
                (S (length buf)) (take from buf) (drop to buf)) as Hs.
  rewrite length_segment, length_take_le in Hs by lia.
  replace (drop to buf) with (drop (from + (to - from)) buf) in Hs at 1
    by (f_equal; lia).
  rewrite split3 in Hs.
  replace (from + (to - from))%nat with to in Hs by lia.
  apply Hs. lia.
Qed.

Lemma std_fill_spec buf first last value :
  (first ≤ last)%nat → (last ≤ length buf)%nat →
  std_fill buf first last value
  = Some (take first buf ++ replicate (last - first) value ++ drop last buf).
Proof.
  intros Hft Hto. unfold std_fill.
  pose proof (fill_loop_spec value (take (last - first) (drop first buf))
                (S (length buf)) (take first buf) (drop last buf)) as Hs.
  rewrite length_segment, length_take_le in Hs by lia.
  replace (drop last buf) with (drop (first + (last - first)) buf) in Hs at 1
    by (f_equal; lia).
  rewrite split3 in Hs.
  replace (first + (last - first))%nat with last in Hs by lia.
  apply Hs. lia.
Qed.

Lemma transfer_fwd_range leave src first n dst d_first :
  (first + n ≤ length src)%nat → (d_first + n ≤ length dst)%nat →
  transfer_fwd leave n src first dst d_first
  = Some (take first src ++ (leave <$> take n (drop first src))
            ++ drop (first + n) src,
          take d_first dst ++ take n (drop first src)
            ++ drop (d_first + n) dst).
Proof.
  intros Hs Hd.
  pose proof (transfer_fwd_spec leave (take n (drop first src))
                (take first src) (drop (first + n) src)
                (take d_first dst) (take n (drop d_first dst))
                (drop (d_first + n) dst)) as Hspec.
  rewrite !split3, !length_segment, !length_take_le in Hspec by lia.
  by apply Hspec.
Qed.

Lemma transfer_bwd_range leave src first n dst d_first :
  (first + n ≤ length src)%nat → (d_first + n ≤ length dst)%nat →
  transfer_bwd leave n src (first + n) dst (d_first + n)
  = Some (take first src ++ (leave <$> take n (drop first src))
            ++ drop (first + n) src,
          take d_first dst ++ take n (drop first src)
            ++ drop (d_first + n) dst).
Proof.
  intros Hs Hd.
  pose proof (transfer_bwd_spec leave (take n (drop first src))
                (take first src) (drop (first + n) src)
                (take d_first dst) (take n (drop d_first dst))
                (drop (d_first + n) dst)) as Hspec.
  rewrite !split3, !length_segment, !length_take_le in Hspec by lia.
  by apply Hspec.
Qed.

Lemma std_copy_spec src first last dst d_first :
  (first ≤ last)%nat → (last ≤ length src)%nat →
  (d_first + (last - first) ≤ length dst)%nat →
  std_copy src first last dst d_first
  = Some (take d_first dst ++ take (last - first) (drop first src)
            ++ drop (d_first + (last - first)) dst).
Proof.
  intros Hfl Hs Hd. unfold std_copy, range_len.
  rewrite decide_True by done. cbn [mbind option_bind].
  by rewrite transfer_fwd_range by lia.
Qed.

Lemma std_move_spec src first last dst d_first :
  (first ≤ last)%nat → (last ≤ length src)%nat →
  (d_first + (last - first) ≤ length dst)%nat →
  std_move src first last dst d_first
  = Some (take first src
            ++ (moved_from <$> take (last - first) (drop first src))
            ++ drop last src,
          take d_first dst ++ take (last - first) (drop first src)
            ++ drop (d_first + (last - first)) dst).
Proof.
  intros Hfl Hs Hd. unfold std_move, range_len.
  rewrite decide_True by done. cbn [mbind option_bind].
  rewrite transfer_fwd_range by lia.
  by replace (first + (last - first))%nat with last by lia.
Qed.

Lemma std_copy_backward_spec src first last dst d_last :
  (first ≤ last)%nat → (last ≤ length src)%nat →
  (last - first ≤ d_last)%nat → (d_last ≤ length dst)%nat →
  std_copy_backward src first last dst d_last
  = Some (take (d_last - (last - first)) dst
            ++ take (last - first) (drop first src) ++ drop d_last dst).
Proof.
  intros Hfl Hs Hn Hd. unfold std_copy_backward, range_len.
  rewrite decide_True by done. cbn [mbind option_bind].
  pose proof (transfer_bwd_range id src first (last - first) dst
                (d_last - (last - first))) as Hspec.
  replace (first + (last - first))%nat with last in Hspec by lia.
  replace (d_last - (last - first) + (last - first))%nat
    with d_last in Hspec by lia.
  by rewrite Hspec by lia.
Qed.

Lemma std_move_backward_spec src first last dst d_last :
  (first ≤ last)%nat → (last ≤ length src)%nat →
  (last - first ≤ d_last)%nat → (d_last ≤ length dst)%nat →
  std_move_backward src first last dst d_last
  = Some (take first src
            ++ (moved_from <$> take (last - first) (drop first src))
            ++ drop last src,
          take (d_last - (last - first)) dst
            ++ take (last - first) (drop first src) ++ drop d_last dst).
Proof.
  intros Hfl Hs Hn Hd. unfold std_move_backward, range_len.
  rewrite decide_True by done. cbn [mbind option_bind].
  pose proof (transfer_bwd_range moved_from src first (last - first) dst
                (d_last - (last - first))) as Hspec.
  replace (first + (last - first))%nat with last in Hspec by lia.
  replace (d_last - (last - first) + (last - first))%nat
    with d_last in Hspec by lia.
  by rewrite Hspec by lia.
Qed.

(** [std::move(pos + 1, last, pos)] inside one array closes the gap at
    [pos]. *)
Lemma std_move_within_spec buf pos last a :
  (pos < last)%nat → (last ≤ length buf)%nat → buf !! pos = Some a →
  std_move_within buf (pos + 1) last pos
  = Some (take pos buf ++ take (last - (pos + 1)) (drop (pos + 1) buf)
            ++ vacated_fwd moved_from a
                 (take (last - (pos + 1)) (drop (pos + 1) buf))
            :: drop last buf).
Proof.
  intros Hpl Hlast Ha. unfold std_move_within, range_len.
  rewrite decide_True by lia. cbn [mbind option_bind].
  set (n := (last - (pos + 1))%nat).
  pose proof (shift_fwd_spec moved_from (take n (drop (pos + 1) buf))
                (take pos buf) a (drop last buf)) as Hspec.
  rewrite length_segment, length_take_le in Hspec by lia.
  replace (take pos buf ++ a :: take n (drop (pos + 1) buf) ++ drop last buf)
    with buf in Hspec.
  - rewrite <- Hspec. f_equal. lia.
  - rewrite <- (take_drop_middle buf pos a Ha) at 1. f_equal. f_equal.
    replace (S pos) with (pos + 1)%nat by lia.
    rewrite <- (take_drop n (drop (pos + 1) buf)) at 1. f_equal.
    rewrite drop_drop. f_equal. lia.
Qed.

(** [std::move_backward(pos, last, last + 1)] inside one array opens a
    gap at [pos]. *)
Lemma shift_bwd_range leave buf pos last b :
  (pos ≤ last)%nat → buf !! last = Some b →
  shift_bwd leave (last - pos) buf last (S last)
  = Some (take pos buf
            ++ vacated_bwd leave b (take (last - pos) (drop pos buf))
            :: take (last - pos) (drop pos buf) ++ drop (S last) buf).
Proof.
  intros Hpl Hb.
  assert (last < length buf)%nat as Hlt by by eapply lookup_lt_Some.
  set (n := (last - pos)%nat).
  pose proof (shift_bwd_spec leave (take n (drop pos buf))
                (take pos buf) b (drop (S last) buf)) as Hspec.
  rewrite length_segment, length_take_le in Hspec by lia.
  replace (pos + n)%nat with last in Hspec by lia.
  replace (take pos buf ++ take n (drop pos buf) ++ b :: drop (S last) buf)
    with buf in Hspec; [done|].
  rewrite <- (take_drop_middle buf last b Hb) at 1.
  rewrite app_assoc. f_equal.
  rewrite take_take_drop. f_equal. lia.
Qed.

Lemma std_move_backward_within_spec buf pos last b :
  (pos ≤ last)%nat → buf !! last = Some b →
  std_move_backward_within buf pos last (last + 1)
  = Some (take pos buf
            ++ vacated_bwd moved_from b (take (last - pos) (drop pos buf))
            :: take (last - pos) (drop pos buf) ++ drop (S last) buf).
Proof.
  intros Hpl Hb. unfold std_move_backward_within, range_len.
  rewrite decide_True by done. cbn [mbind option_bind].
  replace (last + 1)%nat with (S last) by lia.
  by apply shift_bwd_range.
Qed.

(** An empty range is copied without touching the array. *)
Lemma std_copy_backward_within_empty buf first d_last :
  std_copy_backward_within buf first first d_last = Some buf.
Proof.
  unfold std_copy_backward_within, range_len.
  rewrite decide_True by lia. rewrite Nat.sub_diag.
  cbn [mbind option_bind].
  destruct trivially_copyable; [|done].
  rewrite decide_True by lia. unfold memmove_within.
  by rewrite decide_True.
Qed.

End BufferFacts.

(** * Facts about the class *)

Section VectorFacts.
Context {T : Type} `{Element T}.
Implicit Types (v : SimpleVector T) (x item value : T).

Lemma ArrayPtr_new_length n : length (ArrayPtr_new n) = N.to_nat n.
Proof. unfold ArrayPtr_new. by rewrite length_fmap, length_seq. Qed.

Lemma SimpleVector_sized_spec size :
  SimpleVector_sized size
  = Some {| array_ptr_ := replicate (N.to_nat size) default_value;
            size_ := size; capacity_ := size |}.
Proof.
  unfold SimpleVector_sized.
  rewrite FillWithDefaultValue_spec by (rewrite ?ArrayPtr_new_length; lia).
  cbn [mbind option_bind]. do 2 f_equal.
  rewrite take_0, drop_ge by (rewrite ArrayPtr_new_length; lia).
  by rewrite Nat.sub_0_r, app_nil_r.
Qed.

Lemma SimpleVector_filled_spec size value :
  SimpleVector_filled size value
  = Some {| array_ptr_ := replicate (N.to_nat size) value;
            size_ := size; capacity_ := size |}.
Proof.
  unfold SimpleVector_filled.
  rewrite std_fill_spec by (rewrite ?ArrayPtr_new_length; lia).
  cbn [mbind option_bind]. do 2 f_equal.
  rewrite take_0, drop_ge by (rewrite ArrayPtr_new_length; lia).
  by rewrite Nat.sub_0_r, app_nil_r.
Qed.

Lemma elements_length v :
  well_formed v → length (elements v) = N.to_nat (size_ v).
Proof.
  intros ((_ & Hsc) & Hlen & _). unfold elements.
  rewrite length_take_le; lia.
Qed.

Lemma well_formed_bounds v :
  well_formed v →
  (N.to_nat (size_ v) ≤ N.to_nat (capacity_ v))%nat
  ∧ (N.to_nat (capacity_ v) ≤ length (array_ptr_ v))%nat
  ∧ size_ v < SIZE_MODULUS.
Proof. intros ((_ & Hsc) & Hlen & Hmod). repeat split; lia. Qed.

Lemma well_formed_default : well_formed (SimpleVector_default (T := T)).
Proof. repeat split; cbn; unfold SIZE_MODULUS; lia. Qed.

(** **** [PushBack] *)

Lemma PushBack_copy_spare v item :
  well_formed v → size_ v < capacity_ v →
  PushBack_copy v item
  = Some {| array_ptr_ := <[N.to_nat (size_ v) := item]> (array_ptr_ v);
            size_ := size_ v + 1; capacity_ := capacity_ v |}.
Proof.
  intros Hwf Hlt. destruct (well_formed_bounds v Hwf) as (Hsc & Hlen & Hmod).
  destruct Hwf as (_ & _ & Hcap).
  unfold PushBack_copy.
  rewrite decide_False by lia. rewrite decide_False by lia.
  rewrite slot_write_Some by lia. cbn [mbind option_bind].
  rewrite size_add_small by lia. done.
Qed.

Lemma PushBack_copy_full v item :
  well_formed v → size_ v = capacity_ v → 2 * capacity_ v < SIZE_MODULUS →
  PushBack_copy v item
  = Some {| array_ptr_ :=
              elements v ++ item ::
                replicate (N.to_nat (N.max 1 (2 * capacity_ v))
                           - S (N.to_nat (size_ v))) default_value;
            size_ := size_ v + 1;
            capacity_ := N.max 1 (2 * capacity_ v) |}.
Proof.
  intros Hwf Heq Hdbl. destruct (well_formed_bounds v Hwf) as (Hsc & Hlen & Hmod).
  unfold PushBack_copy, elements.
  destruct (decide (capacity_ v = 0)) as [Hz|Hnz].
  - rewrite SimpleVector_sized_spec. cbn [mbind option_bind array_ptr_].
    rewrite Heq, Hz. cbn. done.
  - rewrite decide_True by done.
    rewrite SimpleVector_sized_spec. cbn [mbind option_bind array_ptr_].
    rewrite size_mul_small by lia.
    unfold begin_, end_.
    rewrite std_copy_spec by (rewrite ?length_replicate; lia).
    cbn [mbind option_bind].
    rewrite take_0, drop_0, Nat.sub_0_r. cbn [app Nat.add].
    rewrite drop_replicate.
    assert (N.to_nat (2 * capacity_ v) - N.to_nat (size_ v)
            = S (N.to_nat (2 * capacity_ v) - S (N.to_nat (size_ v))))%nat
      as -> by lia.
    cbn [replicate].
    replace (N.to_nat (size_ v))
      with (length (take (N.to_nat (size_ v)) (array_ptr_ v))) at 3
      by (rewrite length_take_le; lia).
    rewrite slot_write_middle. cbn [mbind option_bind swap fst].
    rewrite size_add_small by lia. cbn [array_ptr_ size_ capacity_].
    replace (N.max 1 (2 * capacity_ v)) with (2 * capacity_ v) by lia.
    done.
Qed.

Lemma PushBack_move_copy v item : PushBack_move v item = PushBack_copy v item.
Proof.
  unfold PushBack_move, PushBack_copy.
  destruct (decide (capacity_ v = 0)); [done|].
  destruct (decide (size_ v = capacity_ v)) as [Heq|Hne].
  - rewrite decide_True by done.
    destruct (SimpleVector_sized _) as [new_vector|]; [|done].
    cbn [mbind option_bind].
    rewrite <- std_move_snd.
    destruct (std_move _ _ _ _ _) as [[old buf]|]; done.
  - rewrite decide_False by done. done.
Qed.

Lemma Insert_move_full v pos value :
  well_formed v → size_ v = capacity_ v → 2 * capacity_ v < SIZE_MODULUS →
  (pos ≤ N.to_nat (size_ v))%nat →
  Insert_move v pos value
  = Some ({| array_ptr_ :=
               take pos (elements v) ++ value :: drop pos (elements v)
               ++ replicate (N.to_nat (N.max 1 (2 * capacity_ v))
                             - S (N.to_nat (size_ v))) default_value;
             size_ := size_ v + 1;
             capacity_ := N.max 1 (2 * capacity_ v) |}, pos).
Proof.
  intros Hwf Heq Hdbl Hpos.
  destruct (well_formed_bounds v Hwf) as (Hsc & Hlen & Hmod).
  unfold Insert_move, elements, cbegin, begin_, end_.
  rewrite Nat.sub_0_r.
  destruct (decide (capacity_ v = 0)) as [Hz|Hnz].
  - rewrite SimpleVector_sized_spec. cbn [mbind option_bind array_ptr_].
    rewrite Heq, Hz in *. cbn in Hpos. replace pos with 0%nat by lia. cbn. done.
  - rewrite decide_True by done.
    rewrite SimpleVector_sized_spec. cbn [mbind option_bind array_ptr_ Nat.add].
    rewrite size_mul_small by lia.
    rewrite std_move_spec by (rewrite ?length_replicate; lia).
    cbn [mbind option_bind].
    rewrite !take_0, !drop_0, Nat.sub_0_r. cbn [app Nat.add].
    rewrite drop_replicate.
    assert (N.to_nat (2 * capacity_ v) = 2 * N.to_nat (size_ v))%nat
      as Hc2 by lia.
    set (A := array_ptr_ v) in *. set (n := N.to_nat (size_ v)) in *.
    set (c2 := N.to_nat (2 * capacity_ v)) in *.
    assert (c2 - pos = S (c2 - S pos))%nat as -> by lia.
    cbn [replicate].
    rewrite slot_write_at by (rewrite length_take_le; lia).
    cbn [mbind option_bind].
    rewrite std_move_backward_spec.
    2: lia.
    2: { rewrite length_app, length_fmap, length_take_le, length_drop by lia. lia. }
    2: lia.
    2: { rewrite length_app, length_take_le by lia. simpl.
         rewrite length_replicate. lia. }
    cbn [mbind option_bind move_assign_distinct ArrayPtr_move fst
         array_ptr_ size_ capacity_].
    rewrite size_add_small by lia.
    replace (N.max 1 (2 * capacity_ v)) with (2 * capacity_ v) by lia.
    do 3 f_equal.
    replace (n + 1 - (n - pos))%nat with (S pos) by lia.
    rewrite take_app_S by (rewrite length_take_le; lia).
    rewrite drop_app_length' by (rewrite length_fmap, length_take_le; lia).
    replace (n + 1)%nat with (S pos + (n - pos))%nat by lia.
    rewrite drop_app_S by (rewrite length_take_le; lia).
    rewrite drop_replicate.
    rewrite take_take, Nat.min_l by lia.
    rewrite <- app_assoc. cbn [app]. do 2 f_equal.
    rewrite take_drop_commute. f_equal.
    + do 2 f_equal. lia.
    + f_equal. subst c2. lia.
Qed.

Lemma Insert_copy_full v pos value :
  well_formed v → size_ v = capacity_ v → 2 * capacity_ v < SIZE_MODULUS →
  (pos ≤ N.to_nat (size_ v))%nat →
  Insert_copy v pos value
  = Some ({| array_ptr_ :=
               take pos (elements v) ++ value :: drop pos (elements v)
               ++ replicate (N.to_nat (N.max 1 (2 * capacity_ v))
                             - S (N.to_nat (size_ v))) default_value;
             size_ := size_ v + 1;
             capacity_ := N.max 1 (2 * capacity_ v) |}, pos).
Proof.
  intros Hwf Heq Hdbl Hpos.
  destruct (well_formed_bounds v Hwf) as (Hsc & Hlen & Hmod).
  unfold Insert_copy, elements, cbegin, begin_, end_.
  rewrite Nat.sub_0_r.
  destruct (decide (capacity_ v = 0)) as [Hz|Hnz].
  - rewrite SimpleVector_sized_spec. cbn [mbind option_bind array_ptr_].
    rewrite Heq, Hz in *. cbn in Hpos. replace pos with 0%nat by lia. cbn. done.
  - rewrite decide_True by done.
    rewrite SimpleVector_sized_spec. cbn [mbind option_bind array_ptr_ Nat.add].
    rewrite size_mul_small by lia.
    rewrite std_copy_spec by (rewrite ?length_replicate; lia).
    cbn [mbind option_bind].
    rewrite !take_0, !drop_0, Nat.sub_0_r. cbn [app Nat.add].
    rewrite drop_replicate.
    assert (N.to_nat (2 * capacity_ v) = 2 * N.to_nat (size_ v))%nat
      as Hc2 by lia.
    set (A := array_ptr_ v) in *. set (n := N.to_nat (size_ v)) in *.
    set (c2 := N.to_nat (2 * capacity_ v)) in *.
    assert (c2 - pos = S (c2 - S pos))%nat as -> by lia.
    cbn [replicate].
    rewrite slot_write_at by (rewrite length_take_le; lia).
    cbn [mbind option_bind].
    rewrite std_copy_backward_spec.
    2, 3, 4: lia.
    2: { rewrite length_app, length_take_le by lia. simpl.
         rewrite length_replicate. lia. }
    cbn [mbind option_bind swap fst array_ptr_ size_ capacity_].
    rewrite size_add_small by lia.
    replace (N.max 1 (2 * capacity_ v)) with (2 * capacity_ v) by lia.
    do 3 f_equal.
    replace (n + 1 - (n - pos))%nat with (S pos) by lia.
    rewrite take_app_S by (rewrite length_take_le; lia).
    replace (n + 1)%nat with (S pos + (n - pos))%nat by lia.
    rewrite drop_app_S by (rewrite length_take_le; lia).
    rewrite drop_replicate.
    rewrite take_take, Nat.min_l by lia.
    rewrite <- app_assoc. cbn [app]. do 2 f_equal.
    rewrite take_drop_commute. f_equal.
    + do 2 f_equal. lia.
    + f_equal. subst c2. lia.
Qed.

Lemma Insert_move_spare v pos value :
  well_formed v → size_ v < capacity_ v → (pos ≤ N.to_nat (size_ v))%nat →
  Insert_move v pos value
  = Some ({| array_ptr_ :=
               take pos (elements v) ++ value :: drop pos (elements v)
               ++ drop (S (N.to_nat (size_ v))) (array_ptr_ v);
             size_ := size_ v + 1;
             capacity_ := capacity_ v |}, pos).
Proof.
  intros Hwf Hlt Hpos.
  destruct (well_formed_bounds v Hwf) as (Hsc & Hlen & Hmod).
  destruct Hwf as (_ & _ & Hcap).
  unfold Insert_move, elements, cbegin, begin_, end_.
  rewrite Nat.sub_0_r.
  rewrite decide_False by lia. rewrite decide_False by lia.
  cbn [Nat.add].
  destruct (lookup_lt_is_Some_2 (array_ptr_ v) (N.to_nat (size_ v)))
    as [b Hb]; [lia|].
  rewrite (std_move_backward_within_spec _ _ _ b) by done.
  cbn [mbind option_bind].
  rewrite slot_write_at by (rewrite length_take_le; lia).
  cbn [mbind option_bind].
  rewrite size_add_small by lia.
  do 3 f_equal.
  rewrite take_take, Nat.min_l by lia. do 2 f_equal.
  f_equal. rewrite take_drop_commute. do 2 f_equal. lia.
Qed.

(** The const-lvalue overload with spare capacity, when [pos] is
    [end()]: nothing is shifted and the value lands at offset
    [size_]. *)
Lemma Insert_copy_at_end v value :
  well_formed v → size_ v < capacity_ v →
  Insert_copy v (N.to_nat (size_ v)) value
  = Some ({| array_ptr_ := <[N.to_nat (size_ v) := value]> (array_ptr_ v);
             size_ := size_ v + 1;
             capacity_ := capacity_ v |}, N.to_nat (size_ v)).
Proof.
  intros Hwf Hlt.
  destruct (well_formed_bounds v Hwf) as (Hsc & Hlen & Hmod).
  destruct Hwf as (_ & _ & Hcap).
  unfold Insert_copy, cbegin, begin_, end_.
  rewrite Nat.sub_0_r.
  rewrite decide_False by lia. rewrite decide_False by lia.
  cbn [Nat.add].
  rewrite std_copy_backward_within_empty. cbn [mbind option_bind].
  rewrite slot_write_Some by lia. cbn [mbind option_bind].
  rewrite size_add_small by lia. done.
Qed.

Lemma Erase_spec v pos :
  well_formed v → (pos < N.to_nat (size_ v))%nat →
  ∃ v', Erase v pos = Some (v', pos)
    ∧ elements v' = take pos (elements v) ++ drop (S pos) (elements v)
    ∧ size_ v' = size_ v - 1
    ∧ capacity_ v' = capacity_ v
    ∧ length (array_ptr_ v') = length (array_ptr_ v).
Proof.
  intros Hwf Hpos.
  destruct (well_formed_bounds v Hwf) as (Hsc & Hlen & Hmod).
  unfold Erase, elements, cbegin, begin_, end_.
  rewrite Nat.sub_0_r. cbn [Nat.add].
  destruct (lookup_lt_is_Some_2 (array_ptr_ v) pos) as [a Ha]; [lia|].
  rewrite (std_move_within_spec _ _ _ a) by (done || lia).
  cbn [mbind option_bind].
  eexists. split; [done|]. cbn [array_ptr_ size_ capacity_].
  rewrite size_sub_small by lia.
  set (A := array_ptr_ v) in *. set (n := N.to_nat (size_ v)) in *.
  repeat split.
  - replace (N.to_nat (size_ v - 1)) with (pos + (n - (pos + 1)))%nat by lia.
    rewrite take_app_add' by (rewrite length_take_le; lia).
    rewrite take_app_length' by (rewrite length_segment; lia).
    rewrite take_take, Nat.min_l by lia. f_equal.
    rewrite take_drop_commute. f_equal; [lia|]. f_equal. lia.
  - rewrite !length_app, length_take_le, length_segment by lia.
    cbn [length]. rewrite length_drop. lia.
Qed.

(** **** Post-conditions *)

Lemma well_formed_intro (a : list T) s c :
  s ≤ c → (N.to_nat c ≤ length a)%nat → c < SIZE_MODULUS →
  well_formed {| array_ptr_ := a; size_ := s; capacity_ := c |}.
Proof. intros. repeat split; cbn; (done || lia). Qed.

Lemma PushBack_copy_post v item :
  well_formed v →
  (size_ v = capacity_ v → 2 * capacity_ v < SIZE_MODULUS) →
  ∃ v', PushBack_copy v item = Some v'
    ∧ well_formed v'
    ∧ elements v' = elements v ++ [item]
    ∧ size_ v' = size_ v + 1
    ∧ capacity_ v' = (if decide (size_ v < capacity_ v) then capacity_ v
                      else N.max 1 (2 * capacity_ v)).
Proof.
  intros Hwf Hdbl.
  destruct (well_formed_bounds v Hwf) as (Hsc & Hlen & Hmod).
  pose proof Hwf as (_ & _ & Hcap).
  destruct (decide (size_ v < capacity_ v)) as [Hlt|Hge].
  - rewrite PushBack_copy_spare by done. eexists. split; [done|].
    split_and!; [| |done..].
    + apply well_formed_intro; rewrite ?length_insert; lia.
    + unfold elements. cbn [size_ array_ptr_].
      replace (N.to_nat (size_ v + 1)) with (S (N.to_nat (size_ v))) by lia.
      rewrite (take_S_r _ _ item)
        by (apply list_lookup_insert_eq; lia).
      by rewrite take_insert_ge by lia.
  - assert (size_ v = capacity_ v) as Heq by lia.
    rewrite PushBack_copy_full by auto. eexists. split; [done|].
    specialize (Hdbl Heq). pose proof SIZE_MODULUS_gt_1.
    split_and!; [| |done..].
    + apply well_formed_intro; [lia| |lia].
      rewrite length_app, elements_length by done. cbn [length].
      rewrite length_replicate. lia.
    + unfold elements at 1. cbn [size_ array_ptr_].
      rewrite cons_middle, app_assoc.
      apply take_app_length'.
      rewrite length_app, elements_length by done. simpl. lia.
Qed.

Lemma Insert_move_post v pos value :
  well_formed v → (pos ≤ N.to_nat (size_ v))%nat →
  (size_ v = capacity_ v → 2 * capacity_ v < SIZE_MODULUS) →
  ∃ v', Insert_move v pos value = Some (v', pos)
    ∧ well_formed v'
    ∧ elements v' = take pos (elements v) ++ value :: drop pos (elements v)
    ∧ size_ v' = size_ v + 1
    ∧ capacity_ v' = (if decide (size_ v < capacity_ v) then capacity_ v
                      else N.max 1 (2 * capacity_ v)).
Proof.
  intros Hwf Hpos Hdbl.
  destruct (well_formed_bounds v Hwf) as (Hsc & Hlen & Hmod).
  pose proof Hwf as (_ & _ & Hcap).
  pose proof (elements_length v Hwf) as HE.
  pose proof SIZE_MODULUS_gt_1.
  destruct (decide (size_ v < capacity_ v)) as [Hlt|Hge].
  - rewrite Insert_move_spare by done. eexists. split; [done|].
    split_and!; [| |done..].
    + apply well_formed_intro; [lia| |lia].
      rewrite length_inserted, length_drop by lia. lia.
    + unfold elements at 1. cbn [size_ array_ptr_].
      apply take_inserted; lia.
  - assert (size_ v = capacity_ v) as Heq by lia.
    rewrite Insert_move_full by auto. eexists. split; [done|].
    specialize (Hdbl Heq).
    split_and!; [| |done..].
    + apply well_formed_intro; [lia| |lia].
      rewrite length_inserted, length_replicate by lia. lia.
    + unfold elements at 1. cbn [size_ array_ptr_].
      apply take_inserted; lia.
Qed.

(** The const-lvalue overload is right whenever it reallocates. *)
Lemma Insert_copy_full_post v pos value :
  well_formed v → (pos ≤ N.to_nat (size_ v))%nat →
  size_ v = capacity_ v → 2 * capacity_ v < SIZE_MODULUS →
  ∃ v', Insert_copy v pos value = Some (v', pos)
    ∧ well_formed v'
    ∧ elements v' = take pos (elements v) ++ value :: drop pos (elements v)
    ∧ size_ v' = size_ v + 1
    ∧ capacity_ v' = N.max 1 (2 * capacity_ v).
Proof.
  intros Hwf Hpos Heq Hdbl.
  destruct (well_formed_bounds v Hwf) as (Hsc & Hlen & Hmod).
  pose proof (elements_length v Hwf) as HE.
  pose proof SIZE_MODULUS_gt_1.
  rewrite Insert_copy_full by auto. eexists. split; [done|].
  split_and!; [| |done..].
  - apply well_formed_intro; [lia| |lia].
    rewrite length_inserted, length_replicate by lia. lia.
  - unfold elements at 1. cbn [size_ array_ptr_].
    apply take_inserted; lia.
Qed.

Lemma Erase_post v pos :
  well_formed v → (pos < N.to_nat (size_ v))%nat →
  ∃ v', Erase v pos = Some (v', pos)
    ∧ well_formed v'
    ∧ elements v' = take pos (elements v) ++ drop (S pos) (elements v)
    ∧ size_ v' = size_ v - 1
    ∧ capacity_ v' = capacity_ v.
Proof.
  intros Hwf Hpos.
  destruct (Erase_spec v pos Hwf Hpos) as (v' & He & Hel & Hs & Hc & Hl).
  destruct (well_formed_bounds v Hwf) as (Hsc & Hlen & Hmod).
  pose proof Hwf as (_ & _ & Hcap).
  exists v'. split_and!; try done.
  destruct v' as [a s c]. cbn in *. subst.
  apply well_formed_intro; lia.
Qed.

(** Inserting through the rvalue overload and erasing at the same
    position gives back the original sequence. *)
Lemma Insert_move_Erase v pos value :
  well_formed v → (pos ≤ N.to_nat (size_ v))%nat →
  (size_ v = capacity_ v → 2 * capacity_ v < SIZE_MODULUS) →
  ∃ v1 v2, Insert_move v pos value = Some (v1, pos)
    ∧ Erase v1 pos = Some (v2, pos)
    ∧ elements v2 = elements v ∧ size_ v2 = size_ v.
Proof.
  intros Hwf Hpos Hdbl.
  destruct (Insert_move_post v pos value Hwf Hpos Hdbl)
    as (v1 & Hi & Hwf1 & Hel1 & Hs1 & _).
  destruct (Erase_post v1 pos Hwf1) as (v2 & He & _ & Hel2 & Hs2 & _);
    [lia|].
  exists v1, v2. split_and!; [done..| |lia].
  pose proof (elements_length v Hwf) as HE.
  rewrite Hel2, Hel1.
  rewrite take_app_length' by (rewrite length_take_le; lia).
  replace (S pos) with (S pos + 0)%nat by lia.
  rewrite drop_app_S by (rewrite length_take_le; lia).
  rewrite drop_0. apply take_drop.
Qed.

(** **** [Resize], [Reserve] and the copy constructor *)

Lemma Resize_post v new_size :
  well_formed v →
  (capacity_ v < new_size → 2 * capacity_ v < SIZE_MODULUS) →
  ∃ v', Resize v new_size = Some v'
    ∧ size_ v' = new_size
    ∧ (new_size ≤ size_ v →
         capacity_ v' = capacity_ v ∧ array_ptr_ v' = array_ptr_ v
         ∧ elements v' = take (N.to_nat new_size) (elements v))
    ∧ (size_ v < new_size → new_size ≤ capacity_ v →
         capacity_ v' = capacity_ v
         ∧ length (array_ptr_ v') = length (array_ptr_ v)
         ∧ elements v' = elements v
             ++ replicate (N.to_nat (new_size - size_ v)) default_value)
    ∧ (capacity_ v < new_size →
         capacity_ v' = N.max (2 * capacity_ v) new_size
         ∧ length (array_ptr_ v') = N.to_nat (capacity_ v')
         ∧ elements v' = elements v
             ++ replicate (N.to_nat (new_size - size_ v)) default_value).
Proof.
  intros Hwf Hdbl.
  destruct (well_formed_bounds v Hwf) as (Hsc & Hlen & Hmod).
  pose proof (elements_length v Hwf) as HE.
  unfold Resize, begin_, end_. cbn [Nat.add].
  destruct (decide (size_ v < new_size)) as [Hgrow|Hshrink].
  - destruct (decide (capacity_ v < new_size)) as [Hbig|Hfit].
    + specialize (Hdbl Hbig). rewrite size_mul_small by done.
      set (max_size := N.max (2 * capacity_ v) new_size).
      rewrite std_move_spec by (rewrite ?ArrayPtr_new_length; lia).
      cbn [mbind option_bind].
      rewrite take_0, drop_0, Nat.sub_0_r. cbn [app Nat.add].
      fold (elements v).
      rewrite FillWithDefaultValue_spec.
      2: lia.
      2: { rewrite length_app, length_drop, ArrayPtr_new_length. lia. }
      cbn [mbind option_bind].
      rewrite take_app_length' by lia.
      rewrite (drop_ge (_ ++ _))
        by (rewrite length_app, length_drop, ArrayPtr_new_length; lia).
      rewrite app_nil_r.
      eexists. split; [done|]. cbn [size_ capacity_ array_ptr_].
      split_and!; [done|lia|lia|]. intros _. split_and!; [done| |].
      * rewrite length_app, length_replicate. lia.
      * unfold elements at 1. cbn [size_ array_ptr_].
        replace (N.to_nat new_size)
          with (length (elements v) + N.to_nat (new_size - size_ v))%nat
          by lia.
        rewrite take_app_add, take_replicate. do 2 f_equal. lia.
    + rewrite FillWithDefaultValue_spec by lia.
      cbn [mbind option_bind].
      eexists. split; [done|]. cbn [size_ capacity_ array_ptr_].
      split_and!; [done|lia| |lia]. intros _ _. split_and!; [done| |].
      * rewrite !length_app, length_take_le, length_replicate, length_drop
          by lia. lia.
      * unfold elements. cbn [size_ array_ptr_].
        replace (N.to_nat new_size)
          with (length (take (N.to_nat (size_ v)) (array_ptr_ v))
                + (N.to_nat new_size - N.to_nat (size_ v)))%nat at 1
          by (rewrite length_take_le; lia).
        rewrite take_app_add.
        rewrite take_app_length' by (rewrite length_replicate; lia).
        do 2 f_equal. lia.
  - eexists. split; [done|]. cbn [size_ capacity_ array_ptr_].
    split_and!; [done| |lia|lia]. intros _. split_and!; [done..|].
    unfold elements. cbn [size_ array_ptr_].
    rewrite take_take. f_equal. lia.
Qed.

Lemma Reserve_post v new_capacity :
  well_formed v →
  ∃ v', Reserve v new_capacity = Some v'
    ∧ elements v' = elements v
    ∧ size_ v' = size_ v
    ∧ capacity_ v' = N.max (capacity_ v) new_capacity
    ∧ (N.to_nat (capacity_ v') ≤ length (array_ptr_ v'))%nat.
Proof.
  intros Hwf.
  destruct (well_formed_bounds v Hwf) as (Hsc & Hlen & Hmod).
  pose proof (elements_length v Hwf) as HE.
  unfold Reserve, begin_, end_. cbn [Nat.add].
  destruct (decide (capacity_ v < new_capacity)) as [Hgrow|Hkeep].
  - rewrite SimpleVector_sized_spec. cbn [mbind option_bind array_ptr_].
    rewrite std_move_spec by (rewrite ?length_replicate; lia).
    cbn [mbind option_bind swap fst capacity_].
    rewrite take_0, drop_0, Nat.sub_0_r. cbn [app Nat.add].
    fold (elements v).
    eexists. split; [done|]. cbn [size_ capacity_ array_ptr_].
    split_and!; [|done|lia|].
    + unfold elements at 1. cbn [size_ array_ptr_].
      apply take_app_length'. lia.
    + rewrite length_app, length_drop, length_replicate. lia.
  - exists v. split_and!; [done..|lia|lia].
Qed.

Lemma SimpleVector_copy_spec other :
  well_formed other →
  SimpleVector_copy other
  = Some {| array_ptr_ := elements other;
            size_ := size_ other; capacity_ := size_ other |}.
Proof.
  intros Hwf.
  destruct (well_formed_bounds other Hwf) as (Hsc & Hlen & Hmod).
  unfold SimpleVector_copy, begin_, end_. cbn [Nat.add].
  rewrite std_copy_spec by (rewrite ?ArrayPtr_new_length; lia).
  cbn [mbind option_bind].
  rewrite take_0, drop_0, Nat.sub_0_r. cbn [app Nat.add].
  rewrite drop_ge by (rewrite ArrayPtr_new_length; lia).
  by rewrite app_nil_r.
Qed.

End VectorFacts.

(** * Preservation of well-formedness *)

Section Preservation.
Context {T : Type} `{Element T}.
Implicit Types (v : SimpleVector T).

Lemma well_formed_invariant v : well_formed v → invariant v.
Proof. by intros [? _]. Qed.

Lemma slot_write_length (buf buf' : list T) i x :
  slot_write buf i x = Some buf' → length buf' = length buf.
Proof.
  unfold slot_write. case_decide; [|done].
  intros [= <-]. apply length_insert.
Qed.

Lemma shift_bwd_length leave n : ∀ (buf buf' : list T) last d_last,
  shift_bwd leave n buf last d_last = Some buf' → length buf' = length buf.
Proof.
  induction n as [|n IH]; intros buf buf' last d_last; cbn [shift_bwd].
  - by intros [= <-].
  - destruct last as [|l]; [done|]. destruct d_last as [|d]; [done|].
    destruct (slot_read buf l) as [x|]; [|done]. cbn [mbind option_bind].
    destruct (slot_write buf d x) as [buf1|] eqn:H1; [|done].
    cbn [mbind option_bind].
    destruct (slot_write buf1 l (leave x)) as [buf2|] eqn:H2; [|done].
    cbn [mbind option_bind]. intros Hrec.
    rewrite (IH _ _ _ _ Hrec).
    by rewrite (slot_write_length _ _ _ _ H2), (slot_write_length _ _ _ _ H1).
Qed.

Lemma shift_bwd_is_Some leave n : ∀ (buf : list T) last d_last,
  (n ≤ last)%nat → (n ≤ d_last)%nat →
  (last ≤ length buf)%nat → (d_last ≤ length buf)%nat →
  is_Some (shift_bwd leave n buf last d_last).
Proof.
  induction n as [|n IH]; intros buf last d_last Hl Hd Hlast Hdlast;
    cbn [shift_bwd]; [done|].
  destruct last as [|l]; [lia|]. destruct d_last as [|d]; [lia|].
  destruct (lookup_lt_is_Some_2 buf l) as [x Hx]; [lia|].
  unfold slot_read. rewrite Hx. cbn [mbind option_bind].
  rewrite slot_write_Some by lia. cbn [mbind option_bind].
  rewrite slot_write_Some by (rewrite length_insert; lia).
  cbn [mbind option_bind].
  apply IH; rewrite ?length_insert; lia.
Qed.

Lemma shift_bwd_None leave n : ∀ (buf : list T) last d_last,
  (d_last < n)%nat → shift_bwd leave n buf last d_last = None.
Proof.
  induction n as [|n IH]; intros buf last d_last Hd; [lia|].
  cbn [shift_bwd].
  destruct last as [|l]; [done|]. destruct d_last as [|d]; [done|].
  destruct (slot_read buf l) as [x|]; [|done]. cbn [mbind option_bind].
  destruct (slot_write buf d x) as [buf1|]; [|done]. cbn [mbind option_bind].
  destruct (slot_write buf1 l (leave x)) as [buf2|]; [|done].
  cbn [mbind option_bind]. apply IH. lia.
Qed.

(** The overlapping [std::copy_backward], whichever way the library
    copies: it keeps the length of the array, it stays inside the array
    when the range is no longer than [d_last], it starts below the array
    otherwise, and a one-element range that ends at [d_last] is copied
    onto itself. *)
Lemma std_copy_backward_within_length (buf buf' : list T) first last d_last :
  std_copy_backward_within buf first last d_last = Some buf' →
  length buf' = length buf.
Proof.
  unfold std_copy_backward_within.
  destruct (range_len first last) as [n|]; [|done].
  cbn [mbind option_bind].
  destruct trivially_copyable; [|apply shift_bwd_length].
  case_decide; [|done]. unfold memmove_within.
  case_decide; [by intros [= <-]|].
  case_decide as Hin; [|done]. intros [= <-].
  rewrite !length_app, length_take_le, length_segment, length_drop by lia.
  lia.
Qed.

Lemma std_copy_backward_within_is_Some (buf : list T) first last d_last :
  (first ≤ last)%nat → (last ≤ length buf)%nat →
  (last - first ≤ d_last)%nat → (d_last ≤ length buf)%nat →
  is_Some (std_copy_backward_within buf first last d_last).
Proof.
  intros Hfl Hlast Hn Hd. unfold std_copy_backward_within, range_len.
  rewrite decide_True by done. cbn [mbind option_bind].
  destruct trivially_copyable; [|apply shift_bwd_is_Some; lia].
  rewrite decide_True by done. unfold memmove_within.
  case_decide; [done|]. by rewrite decide_True by lia.
Qed.

Lemma std_copy_backward_within_None (buf : list T) first last d_last :
  (first ≤ last)%nat → (d_last < last - first)%nat →
  std_copy_backward_within buf first last d_last = None.
Proof.
  intros Hfl Hlong. unfold std_copy_backward_within, range_len.
  rewrite decide_True by done. cbn [mbind option_bind].
  destruct trivially_copyable; [|by apply shift_bwd_None].
  by rewrite decide_False by lia.
Qed.

Lemma std_copy_backward_within_one (buf : list T) l :
  (l < length buf)%nat →
  std_copy_backward_within buf l (S l) (S l) = Some buf.
Proof.
  intros Hl. unfold std_copy_backward_within, range_len.
  rewrite decide_True by lia.
  replace (S l - l)%nat with 1%nat by lia. cbn [mbind option_bind].
  destruct trivially_copyable.
  - rewrite decide_True by lia. unfold memmove_within.
    rewrite decide_False by lia. rewrite decide_True by lia.
    replace (S l - 1)%nat with l by lia. by rewrite split3.
  - cbn [shift_bwd].
    destruct (lookup_lt_is_Some_2 buf l) as [a Ha]; [lia|].
    unfold slot_read. rewrite Ha. cbn [mbind option_bind].
    rewrite slot_write_Some by lia. cbn [mbind option_bind].
    rewrite slot_write_Some by (rewrite length_insert; lia).
    cbn [mbind option_bind id].
    by rewrite list_insert_insert_eq, list_insert_id.
Qed.

(** With spare capacity the const-lvalue [Insert] stays inside the array
    exactly when the suffix is no longer than [pos + 1]; a longer suffix
    makes [std::copy_backward] step below the start of the array. *)
Lemma Insert_copy_spare_is_Some v pos value :
  well_formed v → size_ v < capacity_ v →
  (pos ≤ N.to_nat (size_ v))%nat → (N.to_nat (size_ v) ≤ 2 * pos + 1)%nat →
  is_Some (Insert_copy v pos value).
Proof.
  intros Hwf Hlt Hpos Hshort.
  destruct (well_formed_bounds v Hwf) as (Hsc & Hlen & Hmod).
  unfold Insert_copy, cbegin, begin_, end_.
  rewrite Nat.sub_0_r.
  rewrite decide_False by lia. rewrite decide_False by lia.
  cbn [Nat.add].
  destruct (std_copy_backward_within_is_Some (array_ptr_ v) pos
              (N.to_nat (size_ v)) (pos + 1)) as [buf1 H1]; [lia..|].
  rewrite H1. cbn [mbind option_bind].
  rewrite slot_write_Some
    by (rewrite (std_copy_backward_within_length _ _ _ _ _ H1); lia).
  done.
Qed.

Lemma Insert_copy_spare_None v pos value :
  capacity_ v ≠ 0 → capacity_ v ≠ size_ v →
  (2 * pos + 1 < N.to_nat (size_ v))%nat →
  Insert_copy v pos value = None.
Proof.
  intros Hz Hne Hlong.
  unfold Insert_copy, cbegin, begin_, end_.
  rewrite Nat.sub_0_r.
  rewrite decide_False by done. rewrite decide_False by done.
  cbn [Nat.add].
  by rewrite std_copy_backward_within_None by lia.
Qed.

(** Whenever the const-lvalue [Insert] stays inside the array, it
    leaves a well-formed vector one element longer. *)
Lemma Insert_copy_well_formed v pos value v' p :
  well_formed v → (pos ≤ N.to_nat (size_ v))%nat →
  (size_ v = capacity_ v → 2 * capacity_ v < SIZE_MODULUS) →
  Insert_copy v pos value = Some (v', p) →
  well_formed v' ∧ size_ v' = size_ v + 1 ∧ p = pos.
Proof.
  intros Hwf Hpos Hdbl Hins.
  destruct (well_formed_bounds v Hwf) as (Hsc & Hlen & Hmod).
  pose proof Hwf as (_ & _ & Hcap).
  destruct (decide (size_ v = capacity_ v)) as [Heq|Hne].
  - destruct (Insert_copy_full_post v pos value Hwf Hpos Heq (Hdbl Heq))
      as (v'' & Hins' & Hwf' & _ & Hs & _).
    rewrite Hins in Hins'. by simplify_eq.
  - unfold Insert_copy, cbegin, begin_, end_ in Hins.
    rewrite Nat.sub_0_r in Hins.
    rewrite decide_False in Hins by lia.
    rewrite decide_False in Hins by lia.
    destruct (std_copy_backward_within _ _ _ _) as [buf1|] eqn:H1; [|done].
    cbn [mbind option_bind] in Hins.
    destruct (slot_write buf1 pos value) as [buf2|] eqn:H2; [|done].
    cbn [mbind option_bind] in Hins. simplify_eq.
    rewrite size_add_small by lia. split_and!; [|done..].
    apply well_formed_intro; [lia| |lia].
    rewrite (slot_write_length _ _ _ _ H2),
      (std_copy_backward_within_length _ _ _ _ _ H1).
    lia.
Qed.

Lemma PopBack_well_formed v : well_formed v → well_formed (PopBack v).
Proof.
  intros Hwf. destruct (well_formed_bounds v Hwf) as (Hsc & Hlen & Hmod).
  pose proof Hwf as (_ & _ & Hcap).
  unfold PopBack, IsEmpty. case_bool_decide; [done|]. cbn [negb].
  rewrite size_sub_small by lia.
  apply well_formed_intro; lia.
Qed.

Lemma PopBack_size v :
  well_formed v →
  size_ (PopBack v) = (if decide (size_ v = 0) then 0 else size_ v - 1)
  ∧ capacity_ (PopBack v) = capacity_ v
  ∧ array_ptr_ (PopBack v) = array_ptr_ v.
Proof.
  intros Hwf. destruct (well_formed_bounds v Hwf) as (Hsc & Hlen & Hmod).
  unfold PopBack, IsEmpty. case_bool_decide; case_decide; try done.
  cbn [negb size_ capacity_ array_ptr_].
  by rewrite size_sub_small by lia.
Qed.

Lemma Clear_well_formed v : well_formed v → well_formed (Clear v).
Proof.
  intros Hwf. destruct (well_formed_bounds v Hwf) as (Hsc & Hlen & Hmod).
  pose proof Hwf as (_ & _ & Hcap).
  apply well_formed_intro; lia.
Qed.

Lemma SimpleVector_sized_well_formed size :
  size < SIZE_MODULUS →
  ∃ v, SimpleVector_sized size = Some v ∧ well_formed v
    ∧ elements v = replicate (N.to_nat size) default_value.
Proof.
  intros Hsize. rewrite SimpleVector_sized_spec. eexists. split; [done|].
  split.
  - apply well_formed_intro; rewrite ?length_replicate; lia.
  - unfold elements. cbn. apply take_ge. by rewrite length_replicate.
Qed.

Lemma SimpleVector_filled_well_formed size (value : T) :
  size < SIZE_MODULUS →
  ∃ v, SimpleVector_filled size value = Some v ∧ well_formed v
    ∧ elements v = replicate (N.to_nat size) value.
Proof.
  intros Hsize. rewrite SimpleVector_filled_spec. eexists. split; [done|].
  split.
  - apply well_formed_intro; rewrite ?length_replicate; lia.
  - unfold elements. cbn. apply take_ge. by rewrite length_replicate.
Qed.

Lemma SimpleVector_init_spec (init : list T) :
  SimpleVector_init init
  = Some {| array_ptr_ := init; size_ := N.of_nat (length init);
            capacity_ := N.of_nat (length init) |}.
Proof.
  unfold SimpleVector_init.
  rewrite SimpleVector_sized_spec. cbn [mbind option_bind array_ptr_].
  unfold begin_.
  rewrite std_copy_spec by (rewrite ?length_replicate; lia).
  cbn [mbind option_bind swap fst array_ptr_ size_ capacity_].
  rewrite take_0, drop_0, Nat.sub_0_r. cbn [app Nat.add].
  rewrite take_ge by done.
  rewrite drop_ge by (rewrite length_replicate; lia).
  by rewrite app_nil_r.
Qed.

Lemma SimpleVector_reserved_post (object : ReserveProxyObj) :
  ∃ v, SimpleVector_reserved object = Some v
    ∧ size_ v = 0
    ∧ capacity_ v = ReserveProxyObj_GetCapacity object
    ∧ (N.to_nat (capacity_ v) ≤ length (array_ptr_ v))%nat.
Proof.
  unfold SimpleVector_reserved.
  destruct (Reserve_post SimpleVector_default
              (ReserveProxyObj_GetCapacity object) well_formed_default)
    as (v & Hres & _ & Hs & Hc & Hl).
  exists v. cbn in Hs, Hc. split_and!; [done..| |done]. lia.
Qed.

Lemma SimpleVector_move_post (other : SimpleVector T) :
  well_formed other →
  well_formed (SimpleVector_move other).1
  ∧ well_formed (SimpleVector_move other).2
  ∧ elements (SimpleVector_move other).1 = elements other
  ∧ size_ (SimpleVector_move other).2 = 0
  ∧ capacity_ (SimpleVector_move other).2 = 0.
Proof.
  intros Hwf. destruct (well_formed_bounds other Hwf) as (Hsc & Hlen & Hmod).
  pose proof Hwf as (_ & _ & Hcap). pose proof SIZE_MODULUS_gt_1.
  unfold SimpleVector_move, ArrayPtr_move. cbn [fst snd].
  split_and!; [apply well_formed_intro; cbn; lia..|done|done|done].
Qed.

(** **** Assignment and swap on a store of objects *)

Lemma copy_assign_distinct_post (this rhs : SimpleVector T) :
  well_formed rhs →
  ∃ this', copy_assign_distinct this rhs = Some this'
    ∧ well_formed this'
    ∧ elements this' = elements rhs
    ∧ size_ this' = size_ rhs
    ∧ capacity_ this' = size_ rhs.
Proof.
  intros Hwf. destruct (well_formed_bounds rhs Hwf) as (Hsc & Hlen & Hmod).
  pose proof (elements_length rhs Hwf) as HE.
  pose proof SIZE_MODULUS_gt_1.
  unfold copy_assign_distinct, IsEmpty. case_bool_decide as Hempty.
  - eexists. split; [done|]. cbn [size_ capacity_ array_ptr_ Clear].
    split_and!; [|by unfold elements; cbn; rewrite Hempty|done..].
    apply well_formed_intro; cbn; lia.
  - rewrite SimpleVector_copy_spec by done.
    cbn [mbind option_bind swap fst array_ptr_ size_ capacity_].
    eexists. split; [done|]. cbn [size_ capacity_ array_ptr_].
    split_and!; [| |done..].
    + apply well_formed_intro; lia.
    + unfold elements at 1. cbn [size_ array_ptr_]. apply take_ge. lia.
Qed.

Lemma copy_assign_post (this rhs : positive)
    (σ : gmap positive (SimpleVector T)) l r :
  this ≠ rhs → σ !! this = Some l → σ !! rhs = Some r → well_formed r →
  ∃ l', copy_assign this rhs σ = Some (<[this := l']> σ)
    ∧ well_formed l'
    ∧ elements l' = elements r
    ∧ size_ l' = size_ r
    ∧ capacity_ l' = size_ r.
Proof.
  intros Hne Hl Hr Hwf.
  destruct (copy_assign_distinct_post l r Hwf) as (l' & Hassign & Hrest).
  exists l'. split; [|done].
  unfold copy_assign. rewrite decide_True by done.
  rewrite Hl, Hr. cbn [mbind option_bind]. by rewrite Hassign.
Qed.

Lemma copy_assign_self (this : positive) (σ : gmap positive (SimpleVector T)) :
  copy_assign this this σ = Some σ.
Proof. unfold copy_assign. by rewrite decide_False by (intros ?; done). Qed.

Lemma copy_assign_store (this rhs : positive)
    (σ : gmap positive (SimpleVector T)) :
  map_Forall (λ _ v, well_formed v) σ →
  is_Some (σ !! this) → is_Some (σ !! rhs) →
  ∃ σ', copy_assign this rhs σ = Some σ'
    ∧ map_Forall (λ _ v, well_formed v) σ'.
Proof.
  intros Hall [l Hl] [r Hr].
  destruct (decide (this = rhs)) as [->|Hne].
  - exists σ. by rewrite copy_assign_self.
  - destruct (copy_assign_post this rhs σ l r Hne Hl Hr (Hall _ _ Hr))
      as (l' & Hassign & Hwf & _).
    eexists. split; [done|]. by apply map_Forall_insert_2.
Qed.

Lemma move_assign_store (this rhs : positive)
    (σ : gmap positive (SimpleVector T)) :
  map_Forall (λ _ v, well_formed v) σ →
  is_Some (σ !! this) → is_Some (σ !! rhs) →
  ∃ σ', move_assign this rhs σ = Some σ'
    ∧ map_Forall (λ _ v, well_formed v) σ'.
Proof.
  intros Hall [l Hl] [r Hr]. unfold move_assign.
  case_decide as Hne; [|by exists σ].
  rewrite Hl, Hr. cbn [mbind option_bind move_assign_distinct ArrayPtr_move].
  eexists. split; [done|].
  pose proof (Hall _ _ Hr) as Hwf.
  destruct (well_formed_bounds r Hwf) as (Hsc & Hlen & Hmod).
  pose proof Hwf as (_ & _ & Hcap). pose proof SIZE_MODULUS_gt_1.
  apply map_Forall_insert_2; [apply well_formed_intro; lia|].
  apply map_Forall_insert_2; [apply well_formed_intro; cbn; lia|done].
Qed.

Lemma swap_at_store (this other : positive)
    (σ : gmap positive (SimpleVector T)) :
  map_Forall (λ _ v, well_formed v) σ →
  is_Some (σ !! this) → is_Some (σ !! other) →
  ∃ σ', swap_at this other σ = Some σ'
    ∧ map_Forall (λ _ v, well_formed v) σ'.
Proof.
  intros Hall [l Hl] [r Hr]. unfold swap_at.
  rewrite Hl, Hr. cbn [mbind option_bind swap].
  eexists. split; [done|].
  pose proof (Hall _ _ Hr) as Hwfr. pose proof (Hall _ _ Hl) as Hwfl.
  apply map_Forall_insert_2; [by destruct r|].
  apply map_Forall_insert_2; [by destruct l|done].
Qed.

Lemma Resize_well_formed v new_size :
  well_formed v → new_size < SIZE_MODULUS →
  (capacity_ v < new_size → 2 * capacity_ v < SIZE_MODULUS) →
  ∃ v', Resize v new_size = Some v' ∧ well_formed v'.
Proof.
  intros Hwf Hnew Hdbl.
  destruct (well_formed_bounds v Hwf) as (Hsc & Hlen & Hmod).
  pose proof Hwf as (_ & _ & Hcap).
  destruct (Resize_post v new_size Hwf Hdbl)
    as (v' & Hres & Hs & Hshrink & Hfit & Hbig).
  exists v'. split; [done|]. destruct v' as [a s c]. cbn in *. subst s.
  destruct (decide (new_size ≤ size_ v)).
  - destruct Hshrink as (-> & -> & _); [done|]. apply well_formed_intro; lia.
  - destruct (decide (new_size ≤ capacity_ v)).
    + destruct Hfit as (-> & Hl & _); [lia|done|].
      apply well_formed_intro; lia.
    + destruct Hbig as (-> & Hl & _); [lia|].
      specialize (Hdbl ltac:(lia)).
      apply well_formed_intro; lia.
Qed.

Lemma Reserve_well_formed v new_capacity :
  well_formed v → new_capacity < SIZE_MODULUS →
  ∃ v', Reserve v new_capacity = Some v' ∧ well_formed v'.
Proof.
  intros Hwf Hnew.
  destruct (well_formed_bounds v Hwf) as (Hsc & Hlen & Hmod).
  pose proof Hwf as (_ & _ & Hcap).
  destruct (Reserve_post v new_capacity Hwf) as (v' & Hres & _ & Hs & Hc & Hl).
  exists v'. split; [done|]. destruct v' as [a s c]. cbn in *. subst.
  apply well_formed_intro; lia.
Qed.

End Preservation.

(** * Repeated [PushBack] *)

Section Growth.
Context {T : Type} `{Element T}.

Lemma push_all_ext (push1 push2 : SimpleVector T → T → option (SimpleVector T)) :
  (∀ v x, push1 v x = push2 v x) →
  ∀ items v, push_all push1 v items = push_all push2 v items.
Proof.
  intros Hext items. induction items as [|x items IH]; intros v; [done|].
  cbn [push_all]. rewrite Hext. destruct (push2 v x); [|done].
  cbn [mbind option_bind]. apply IH.
Qed.

Lemma power_of_two_or_zero_grow c :
  power_of_two_or_zero c → power_of_two_or_zero (N.max 1 (2 * c)).
Proof.
  intros [->|[k ->]]; right.
  - by exists 0.
  - exists (N.succ k). rewrite N.pow_succ_r'.
    pose proof (N.pow_nonzero 2 k). lia.
Qed.

Lemma push_all_post (items : list T) : ∀ v,
  well_formed v → power_of_two_or_zero (capacity_ v) →
  2 * (size_ v + N.of_nat (length items)) ≤ SIZE_MODULUS →
  ∃ w, push_all PushBack_copy v items = Some w
    ∧ well_formed w
    ∧ power_of_two_or_zero (capacity_ w)
    ∧ elements w = elements v ++ items
    ∧ size_ w = size_ v + N.of_nat (length items).
Proof.
  induction items as [|x items IH]; intros v Hwf Hpow Hbound.
  - exists v. cbn [push_all length]. rewrite app_nil_r.
    split_and!; [done..|lia].
  - cbn [length] in Hbound.
    destruct (PushBack_copy_post v x Hwf) as (v' & Hpush & Hwf' & Hel & Hs & Hc).
    { destruct (well_formed_bounds v Hwf) as (_ & _ & Hmod). lia. }
    destruct (IH v') as (w & Hall & Hwfw & Hpw & Helw & Hsw).
    + done.
    + rewrite Hc. case_decide; [done|]. by apply power_of_two_or_zero_grow.
    + lia.
    + exists w. cbn [push_all]. rewrite Hpush. cbn [mbind option_bind].
      split_and!; [done..| |].
      * by rewrite Helw, Hel, <- app_assoc.
      * cbn [length]. lia.
Qed.

End Growth.

(** * Facts about the comparison loops *)

Section ComparisonFacts.
Context {T : Type} `{Element T}.

Lemma std_equal_spec (l1 : list T) : ∀ l2,
  std_equal l1 l2 = true ↔ elementwise_equal l1 l2.
Proof.
  unfold elementwise_equal.
  induction l1 as [|x l1 IH]; intros [|y l2]; cbn [std_equal length].
  - split; [|done]. intros _. split; [done|]. intros i ?? Hx. by destruct i.
  - split; [done|]. intros [? _]. done.
  - split; [done|]. intros [? _]. done.
  - rewrite andb_true_iff, IH. split.
    + intros (Hxy & Hlen & Hrest). split; [by f_equal|].
      intros [|i] x' y' Hx Hy; cbn in Hx, Hy.
      * by simplify_eq.
      * by eapply Hrest.
    + intros (Hlen & Hall). split_and!.
      * by apply (Hall 0%nat).
      * by simplify_eq.
      * intros i x' y' Hx Hy. by apply (Hall (S i)).
Qed.

Lemma std_lexicographical_compare_spec (l1 : list T) : ∀ l2,
  std_lexicographical_compare l1 l2 = true ↔ lexicographic_less l1 l2.
Proof.
  unfold lexicographic_less.
  induction l1 as [|x l1 IH]; intros [|y l2];
    cbn [std_lexicographical_compare].
  - split; [done|].
    intros (k & _ & [[_ Hlt]|(x & y & Hx & _)]); [simpl in Hlt; lia|].
    by destruct k.
  - split; [|done]. intros _. exists 0%nat. split; [lia|].
    left. simpl. split; [done|lia].
  - split; [done|].
    intros (k & _ & [[_ Hlt]|(x' & y' & _ & Hy & _)]); [simpl in Hlt; lia|].
    by destruct k.
  - destruct (elt_lt x y) eqn:Hxy.
    { split; [|done]. intros _. exists 0%nat. split; [lia|].
      right. by exists x, y. }
    destruct (elt_lt y x) eqn:Hyx.
    { split; [done|]. intros (k & Hpre & Hk). destruct k as [|k].
      - destruct Hk as [[Hk _]|(x' & y' & Hx & Hy & Hlt)]; [done|].
        cbn in Hx, Hy. simplify_eq. congruence.
      - destruct (Hpre 0%nat x y) as [_ ?]; [lia|done..|congruence]. }
    rewrite IH. split.
    + intros (k & Hpre & Hk). exists (S k). split.
      * intros [|i] x' y' Hi Hx Hy; cbn in Hx, Hy.
        -- by simplify_eq.
        -- apply (Hpre i); [lia|done..].
      * destruct Hk as [[-> Hlt]|Hk]; [left; simpl; split; [done|lia]|].
        by right.
    + intros (k & Hpre & Hk). destruct k as [|k].
      * destruct Hk as [[Hk _]|(x' & y' & Hx & Hy & Hlt)]; [done|].
        cbn in Hx, Hy. simplify_eq. congruence.
      * exists k. split.
        -- intros i x' y' Hi Hx Hy. apply (Hpre (S i)); [lia|done..].
        -- destruct Hk as [[Hk Hlt]|Hk]; [|by right].
           left. simpl in Hk, Hlt. split; [congruence|lia].
Qed.

Lemma slots_elements (v : SimpleVector T) :
  well_formed v →
  slots (array_ptr_ v) (begin_ v) (end_ v) = Some (elements v).
Proof.
  intros Hwf. destruct (well_formed_bounds v Hwf) as (Hsc & Hlen & Hmod).
  unfold slots, range_len, begin_, end_. cbn [Nat.add].
  rewrite decide_True by lia. cbn [mbind option_bind].
  rewrite decide_True by lia. by rewrite drop_0, Nat.sub_0_r.
Qed.

End ComparisonFacts.

(** * The vector of ints used in the examples *)

Lemma v_10_20_30_built :
  push_all PushBack_copy SimpleVector_default [10; 20; 30]%Z = Some v_10_20_30.
Proof. reflexivity. Qed.

Lemma v_10_20_30_well_formed : well_formed v_10_20_30.
Proof. repeat split; cbn; (done || lia). Qed.

Lemma v_10_20_30_40_well_formed : well_formed v_10_20_30_40.
Proof. repeat split; cbn; (done || lia). Qed.

Lemma v_10_20_31_well_formed : well_formed v_10_20_31.
Proof. repeat split; cbn; (done || lia). Qed.

(** * The specified properties *)

Section Properties.
Context {T : Type} `{Element T}.

(** C3.  [PushBack] follows the doubling policy with a floor of one, in
    both overloads.  With spare capacity the value is written at offset
    [size_] of the same array and the capacity stays; with a full array
    the capacity becomes [max(1, 2 * capacity_)].  Either way the item
    is appended.  Hence [n] calls on a default-constructed vector leave
    a capacity that is zero or a power of two and at least [n], with the
    items in the order they were pushed. *)
Theorem PushBack_growth_policy :
  (∀ (v : SimpleVector T) (item : T),
     well_formed v →
     (size_ v = capacity_ v → 2 * capacity_ v < SIZE_MODULUS) →
     ∃ v', PushBack_copy v item = Some v'
       ∧ PushBack_move v item = Some v'
       ∧ size_ v' = size_ v + 1
       ∧ elements v' = elements v ++ [item]
       ∧ (size_ v < capacity_ v →
            capacity_ v' = capacity_ v
            ∧ array_ptr_ v' = <[N.to_nat (size_ v) := item]> (array_ptr_ v))
       ∧ (size_ v = capacity_ v →
            capacity_ v' = N.max 1 (2 * capacity_ v)))
  ∧ (∀ items : list T,
       2 * N.of_nat (length items) ≤ SIZE_MODULUS →
       ∃ w, push_all PushBack_copy SimpleVector_default items = Some w
         ∧ push_all PushBack_move SimpleVector_default items = Some w
         ∧ power_of_two_or_zero (capacity_ w)
         ∧ N.of_nat (length items) ≤ capacity_ w
         ∧ size_ w = N.of_nat (length items)
         ∧ elements w = items).
Proof.
  split.
  - intros v item Hwf Hdbl.
    destruct (PushBack_copy_post v item Hwf Hdbl)
      as (v' & Hpush & Hwf' & Hel & Hs & Hc).
    exists v'. rewrite PushBack_move_copy. split_and!; try done.
    + intros Hlt. rewrite decide_True in Hc by done. split; [done|].
      rewrite PushBack_copy_spare in Hpush by done. by simplify_eq.
    + intros Heq. by rewrite decide_False in Hc by lia.
  - intros items Hbound.
    destruct (push_all_post items SimpleVector_default)
      as (w & Hall & Hwf & Hpow & Hel & Hs).
    + apply well_formed_default.
    + by left.
    + cbn. lia.
    + exists w. rewrite (push_all_ext _ _ PushBack_move_copy).
      cbn in Hs, Hel. split_and!; try done.
      destruct Hwf as ((_ & Hsc) & _). lia.
Qed.

(** C4.  [Resize(new_size)] sets the size to [new_size] and, by case:
    shrinking keeps the capacity and the array; growing within the
    capacity keeps the capacity and sets the new slots to the default
    value; growing beyond it takes the capacity to
    [max(2 * capacity_, new_size)], keeps the old elements in order and
    follows them with default values. *)
Theorem Resize_cases (v : SimpleVector T) (new_size : N) :
  well_formed v →
  (capacity_ v < new_size → 2 * capacity_ v < SIZE_MODULUS) →
  ∃ v', Resize v new_size = Some v'
    ∧ size_ v' = new_size
    ∧ (new_size ≤ size_ v →
         capacity_ v' = capacity_ v ∧ array_ptr_ v' = array_ptr_ v
         ∧ elements v' = take (N.to_nat new_size) (elements v))
    ∧ (size_ v < new_size → new_size ≤ capacity_ v →
         capacity_ v' = capacity_ v
         ∧ length (array_ptr_ v') = length (array_ptr_ v)
         ∧ elements v' = elements v
             ++ replicate (N.to_nat (new_size - size_ v)) default_value)
    ∧ (capacity_ v < new_size →
         capacity_ v' = N.max (2 * capacity_ v) new_size
         ∧ length (array_ptr_ v') = N.to_nat (capacity_ v')
         ∧ elements v' = elements v
             ++ replicate (N.to_nat (new_size - size_ v)) default_value).
Proof. apply Resize_post. Qed.

(** C5.  Constructing from a [ReserveProxyObj] gives size 0 and the
    requested capacity. *)
Theorem reserve_constructor (object : ReserveProxyObj) :
  ∃ v : SimpleVector T,
    SimpleVector_reserved object = Some v
    ∧ GetSize v = 0
    ∧ GetCapacity v = ReserveProxyObj_GetCapacity object.
Proof.
  destruct (SimpleVector_reserved_post object) as (v & Hv & Hs & Hc & _).
  by exists v.
Qed.

(** C6.  Copy assignment: assigning an object to itself changes
    nothing; assigning an empty vector leaves size and capacity 0;
    assigning a non-empty vector leaves its elements, with size and
    capacity both equal to its size.  No other object changes. *)
Theorem copy_assignment :
  (∀ (σ : gmap positive (SimpleVector T)) this,
     copy_assign this this σ = Some σ)
  ∧ (∀ (σ : gmap positive (SimpleVector T)) this rhs l r,
       this ≠ rhs → σ !! this = Some l → σ !! rhs = Some r →
       well_formed r →
       ∃ l', copy_assign this rhs σ = Some (<[this := l']> σ)
         ∧ (size_ r = 0 → size_ l' = 0 ∧ capacity_ l' = 0)
         ∧ (size_ r ≠ 0 →
              elements l' = elements r
              ∧ size_ l' = size_ r ∧ capacity_ l' = size_ r)).
Proof.
  split; [intros; apply copy_assign_self|].
  intros σ this rhs l r Hne Hl Hr Hwf.
  destruct (copy_assign_post this rhs σ l r Hne Hl Hr Hwf)
    as (l' & Hassign & _ & Hel & Hs & Hc).
  exists l'. split_and!; [done| |done].
  intros Hz. split; congruence.
Qed.

(** C7.  [At(index)] throws [std::out_of_range] exactly when
    [index >= size_]; below the size it returns a reference to the
    element at that index; when it throws the vector is as before. *)
Theorem At_checked (v : SimpleVector T) (index : N) :
  ((∃ v', At v index = Some (v', ThrowOutOfRange)) ↔ size_ v ≤ index)
  ∧ (well_formed v → index < size_ v →
       ∃ x, elements v !! N.to_nat index = Some x
         ∧ At v index = Some (v, Slot (N.to_nat index) x))
  ∧ (∀ v', At v index = Some (v', ThrowOutOfRange) →
       size_ v' = size_ v ∧ capacity_ v' = capacity_ v
       ∧ elements v' = elements v).
Proof.
  unfold At. split_and!.
  - case_decide as Hlt.
    + split; [|lia]. intros [v' Hat].
      destruct (slot_read _ _); cbn in Hat; done.
    + split; [lia|]. intros _. by exists v.
  - intros Hwf Hlt.
    destruct (well_formed_bounds v Hwf) as (Hsc & Hlen & Hmod).
    rewrite decide_True by done. unfold slot_read, elements.
    destruct (lookup_lt_is_Some_2 (array_ptr_ v) (N.to_nat index))
      as [x Hx]; [lia|].
    exists x. rewrite lookup_take_lt by lia. by rewrite Hx.
  - intros v'. case_decide.
    + destruct (slot_read _ _); cbn; done.
    + by intros [= <-].
Qed.

(** C8.  On two vectors of one element type, [==] holds exactly when
    the sizes agree and the elements are equal in order, [<] is the
    lexicographic order of the element sequences, and [!=], [>], [<=],
    [>=] are [!(a == b)], [b < a], [!(a > b)] and [!(a < b)]. *)
Theorem comparison_operators (a b : SimpleVector T) :
  well_formed a → well_formed b →
  ∃ eq lt gt,
    op_eq a b = Some eq ∧ op_lt a b = Some lt ∧ op_gt a b = Some gt
    ∧ (eq = true ↔
         size_ a = size_ b ∧ elementwise_equal (elements a) (elements b))
    ∧ (lt = true ↔ lexicographic_less (elements a) (elements b))
    ∧ op_ne a b = Some (negb eq)
    ∧ op_lt b a = Some gt
    ∧ op_le a b = Some (negb gt)
    ∧ op_ge a b = Some (negb lt).
Proof.
  intros Ha Hb.
  unfold op_ne, op_le, op_ge, op_gt, op_eq, op_lt.
  rewrite !slots_elements by done. cbn [mbind option_bind fmap option_fmap option_map].
  eexists _, _, _. split_and!; try done.
  - rewrite std_equal_spec. split; [|by intros [_ ?]].
    intros Heq. split; [|done]. destruct Heq as [Hlen _].
    rewrite !elements_length in Hlen by done. lia.
  - apply std_lexicographical_compare_spec.
Qed.

(** X26.  Apart from the const-lvalue [Insert] on a vector with spare
    capacity, every constructor yields and every public operation called
    within its precondition preserves a well-formed vector, and a
    well-formed vector satisfies [0 <= size_ <= capacity_].  Size
    arguments are [size_t] values and a doubled capacity has to be
    representable.  The const-lvalue [Insert] preserves well-formedness
    whenever it stays inside the array, which it does when it
    reallocates and when the suffix is no longer than [pos + 1]. *)
Theorem size_capacity_invariant :
  (∀ v : SimpleVector T, well_formed v → invariant v)
  ∧ well_formed (SimpleVector_default (T := T))
  ∧ (∀ size, size < SIZE_MODULUS →
       ∃ v : SimpleVector T, SimpleVector_sized size = Some v ∧ well_formed v)
  ∧ (∀ size (value : T), size < SIZE_MODULUS →
       ∃ v, SimpleVector_filled size value = Some v ∧ well_formed v)
  ∧ (∀ init : list T, N.of_nat (length init) < SIZE_MODULUS →
       ∃ v, SimpleVector_init init = Some v ∧ well_formed v)
  ∧ (∀ object, ReserveProxyObj_GetCapacity object < SIZE_MODULUS →
       ∃ v : SimpleVector T,
         SimpleVector_reserved object = Some v ∧ well_formed v)
  ∧ (∀ other : SimpleVector T, well_formed other →
       ∃ v, SimpleVector_copy other = Some v ∧ well_formed v)
  ∧ (∀ other : SimpleVector T, well_formed other →
       well_formed (SimpleVector_move other).1
       ∧ well_formed (SimpleVector_move other).2)
  ∧ (∀ (v : SimpleVector T) item, well_formed v →
       (size_ v = capacity_ v → 2 * capacity_ v < SIZE_MODULUS) →
       ∃ v', PushBack_copy v item = Some v' ∧ well_formed v')
  ∧ (∀ (v : SimpleVector T) item, well_formed v →
       (size_ v = capacity_ v → 2 * capacity_ v < SIZE_MODULUS) →
       ∃ v', PushBack_move v item = Some v' ∧ well_formed v')
  ∧ (∀ v : SimpleVector T, well_formed v → well_formed (PopBack v))
  ∧ (∀ (v : SimpleVector T) pos value, well_formed v →
       (pos ≤ N.to_nat (size_ v))%nat →
       (size_ v = capacity_ v → 2 * capacity_ v < SIZE_MODULUS) →
       ∃ v', Insert_move v pos value = Some (v', pos) ∧ well_formed v')
  ∧ (∀ (v : SimpleVector T) pos value v' p, well_formed v →
       (pos ≤ N.to_nat (size_ v))%nat →
       (size_ v = capacity_ v → 2 * capacity_ v < SIZE_MODULUS) →
       Insert_copy v pos value = Some (v', p) → well_formed v')
  ∧ (∀ (v : SimpleVector T) pos value, well_formed v →
       (pos ≤ N.to_nat (size_ v))%nat →
       (size_ v = capacity_ v → 2 * capacity_ v < SIZE_MODULUS) →
       size_ v = capacity_ v ∨ (N.to_nat (size_ v) ≤ 2 * pos + 1)%nat →
       ∃ v', Insert_copy v pos value = Some (v', pos) ∧ well_formed v')
  ∧ (∀ (v : SimpleVector T) pos, well_formed v →
       (pos < N.to_nat (size_ v))%nat →
       ∃ v', Erase v pos = Some (v', pos) ∧ well_formed v')
  ∧ (∀ v : SimpleVector T, well_formed v → well_formed (Clear v))
  ∧ (∀ (v : SimpleVector T) new_size, well_formed v →
       new_size < SIZE_MODULUS →
       (capacity_ v < new_size → 2 * capacity_ v < SIZE_MODULUS) →
       ∃ v', Resize v new_size = Some v' ∧ well_formed v')
  ∧ (∀ (v : SimpleVector T) new_capacity, well_formed v →
       new_capacity < SIZE_MODULUS →
       ∃ v', Reserve v new_capacity = Some v' ∧ well_formed v')
  ∧ (∀ (σ : gmap positive (SimpleVector T)) this rhs,
       map_Forall (λ _ v, well_formed v) σ →
       is_Some (σ !! this) → is_Some (σ !! rhs) →
       (∃ σ', copy_assign this rhs σ = Some σ'
          ∧ map_Forall (λ _ v, well_formed v) σ')
       ∧ (∃ σ', move_assign this rhs σ = Some σ'
            ∧ map_Forall (λ _ v, well_formed v) σ')
       ∧ (∃ σ', swap_at this rhs σ = Some σ'
            ∧ map_Forall (λ _ v, well_formed v) σ')).
Proof.
  split_and!.
  - apply well_formed_invariant.
  - apply well_formed_default.
  - intros size Hsize.
    destruct (SimpleVector_sized_well_formed size Hsize) as (v & ? & ? & _).
    by exists v.
  - intros size value Hsize.
    destruct (SimpleVector_filled_well_formed size value Hsize)
      as (v & ? & ? & _).
    by exists v.
  - intros init Hlen. rewrite SimpleVector_init_spec.
    eexists. split; [done|]. apply well_formed_intro; lia.
  - intros object Hcap.
    destruct (SimpleVector_reserved_post object) as (v & Hv & Hs & Hc & Hl).
    exists v. split; [done|]. destruct v as [a s c]. cbn in *. subst.
    apply well_formed_intro; lia.
  - intros other Hwf. rewrite SimpleVector_copy_spec by done.
    eexists. split; [done|].
    destruct (well_formed_bounds other Hwf) as (_ & _ & Hmod).
    apply well_formed_intro; [lia| |done].
    rewrite elements_length by done. lia.
  - intros other Hwf.
    destruct (SimpleVector_move_post other Hwf) as (? & ? & _). done.
  - intros v item Hwf Hdbl.
    destruct (PushBack_copy_post v item Hwf Hdbl) as (v' & ? & ? & _).
    by exists v'.
  - intros v item Hwf Hdbl. rewrite PushBack_move_copy.
    destruct (PushBack_copy_post v item Hwf Hdbl) as (v' & ? & ? & _).
    by exists v'.
  - apply PopBack_well_formed.
  - intros v pos value Hwf Hpos Hdbl.
    destruct (Insert_move_post v pos value Hwf Hpos Hdbl) as (v' & ? & ? & _).
    by exists v'.
  - intros v pos value v' p Hwf Hpos Hdbl Hins.
    by destruct (Insert_copy_well_formed v pos value v' p Hwf Hpos Hdbl Hins).
  - intros v pos value Hwf Hpos Hdbl Hin.
    assert (is_Some (Insert_copy v pos value)) as [[v' p] Hins].
    { destruct (decide (size_ v = capacity_ v)) as [Heq|Hne].
      - destruct (Insert_copy_full_post v pos value Hwf Hpos Heq (Hdbl Heq))
          as (v' & -> & _). done.
      - destruct Hin as [?|Hshort]; [done|].
        apply Insert_copy_spare_is_Some; try done.
        destruct Hwf as ((_ & ?) & _). lia. }
    destruct (Insert_copy_well_formed v pos value v' p Hwf Hpos Hdbl Hins)
      as (? & _ & ->).
    by exists v'.
  - intros v pos Hwf Hpos.
    destruct (Erase_post v pos Hwf Hpos) as (v' & ? & ? & _).
    by exists v'.
  - apply Clear_well_formed.
  - apply Resize_well_formed.
  - apply Reserve_well_formed.
  - intros σ this rhs Hall Hthis Hrhs. split_and!.
    + by apply copy_assign_store.
    + by apply move_assign_store.
    + by apply swap_at_store.
Qed.

End Properties.

(** * The const-lvalue [Insert] with spare capacity

    [Insert(const_iterator, const Type&)] hands [std::copy_backward] the
    slot after [pos] as the end of the destination, where the rvalue
    overload and both reallocating paths hand it [size_ + 1].  On
    [{10, 20, 30}] with capacity 4 and [pos = begin() + 2] the shift then
    copies slot 2 onto itself, the value overwrites it, and the stale slot
    3 becomes the last element. *)

(** C1.  On [{10, 20, 30}] with one spare slot, inserting 99 before the
    last element through the const-lvalue overload returns the offset of
    the new element and a vector one element longer, but its elements are
    [{10, 20, 99, 0}] and not the prefix, the value and the suffix: 30 is
    lost.  The rvalue overload yields [{10, 20, 99, 30}]. *)
Theorem Insert_copy_spare_capacity_loses_suffix :
  ∃ v',
    Insert_copy v_10_20_30 2 99%Z = Some (v', 2%nat)
    ∧ size_ v' = size_ v_10_20_30 + 1
    ∧ capacity_ v' = capacity_ v_10_20_30
    ∧ elements v' = [10; 20; 99; 0]%Z
    ∧ elements v'
      ≠ take 2 (elements v_10_20_30) ++ 99%Z :: drop 2 (elements v_10_20_30)
    ∧ Insert_move v_10_20_30 2 99%Z
      = Some ({| array_ptr_ := [10; 20; 99; 30]%Z;
                 size_ := 4; capacity_ := 4 |}, 2%nat).
Proof. eexists. split_and!; try reflexivity. discriminate. Qed.

(** C2.  On the same vector, [Insert] through the const-lvalue overload
    followed by [Erase] at the same position leaves [{10, 20, 0}], not
    the original [{10, 20, 30}]. *)
Theorem Insert_copy_then_Erase_differs :
  ∃ v1 v2,
    Insert_copy v_10_20_30 2 99%Z = Some (v1, 2%nat)
    ∧ Erase v1 2 = Some (v2, 2%nat)
    ∧ size_ v2 = size_ v_10_20_30
    ∧ elements v2 = [10; 20; 0]%Z
    ∧ elements v2 ≠ elements v_10_20_30.
Proof. eexists _, _. split_and!; try reflexivity. discriminate. Qed.

(** C9.  [{10, 20, 30}] with capacity 4 satisfies the invariant and
    [begin()] is a valid insertion position, yet the const-lvalue
    [Insert] there has no resulting state: [std::copy_backward] is told
    to end the three-element suffix at offset 1 and so starts two slots
    below the array.  The rvalue overload, on the same input, returns a
    vector that satisfies the invariant. *)
Theorem Insert_copy_at_begin_leaves_the_array :
  well_formed v_10_20_30
  ∧ invariant v_10_20_30
  ∧ (0 ≤ N.to_nat (size_ v_10_20_30))%nat
  ∧ Insert_copy v_10_20_30 0 99%Z = None
  ∧ ∃ v', Insert_move v_10_20_30 0 99%Z = Some (v', 0%nat)
      ∧ elements v' = [99; 10; 20; 30]%Z
      ∧ invariant v'.
Proof.
  split_and!.
  - exact v_10_20_30_well_formed.
  - split; cbn; lia.
  - lia.
  - reflexivity.
  - exists {| array_ptr_ := [99; 10; 20; 30]%Z; size_ := 4; capacity_ := 4 |}.
    split_and!; [reflexivity..|]. split; cbn; lia.
Qed.

(** C10.  For [int], where a move is a copy, the two [Insert] overloads
    disagree on the same vector, position and value. *)
Theorem Insert_overloads_disagree :
  (∀ x : Z, moved_from x = x)
  ∧ ∃ v1 v2,
      Insert_copy v_10_20_30 2 99%Z = Some (v1, 2%nat)
      ∧ Insert_move v_10_20_30 2 99%Z = Some (v2, 2%nat)
      ∧ elements v1 = [10; 20; 99; 0]%Z
      ∧ elements v2 = [10; 20; 99; 30]%Z
      ∧ elements v1 ≠ elements v2
      ∧ size_ v1 = size_ v2 ∧ capacity_ v1 = capacity_ v2.
Proof.
  split; [done|]. eexists _, _. split_and!; try reflexivity. discriminate.
Qed.

(** * The properties at concrete vectors of ints *)

Lemma PushBack_growth_policy_witness :
  (well_formed v_10_20_30
   ∧ ∃ v', PushBack_copy v_10_20_30 40%Z = Some v'
       ∧ PushBack_move v_10_20_30 40%Z = Some v'
       ∧ elements v' = [10; 20; 30; 40]%Z ∧ capacity_ v' = 4)
  ∧ (well_formed v_10_20_30_40
     ∧ 2 * capacity_ v_10_20_30_40 < SIZE_MODULUS
     ∧ ∃ v', PushBack_copy v_10_20_30_40 50%Z = Some v'
         ∧ PushBack_move v_10_20_30_40 50%Z = Some v'
         ∧ elements v' = [10; 20; 30; 40; 50]%Z ∧ capacity_ v' = 8)
  ∧ (2 * N.of_nat (length [10; 20; 30]%Z) ≤ SIZE_MODULUS
     ∧ ∃ w, push_all PushBack_copy SimpleVector_default [10; 20; 30]%Z = Some w
         ∧ push_all PushBack_move SimpleVector_default [10; 20; 30]%Z = Some w
         ∧ power_of_two_or_zero (capacity_ w)
         ∧ 3 ≤ capacity_ w
         ∧ elements w = [10; 20; 30]%Z).
Proof.
  split_and!.
  - exact v_10_20_30_well_formed.
  - destruct (proj1 PushBack_growth_policy v_10_20_30 40%Z
                v_10_20_30_well_formed)
      as (v' & Hc & Hm & _ & Hel & Hspare & _).
    + intros Heq. discriminate Heq.
    + exists v'. split_and!; [exact Hc|exact Hm|exact Hel|].
      apply Hspare. reflexivity.
  - exact v_10_20_30_40_well_formed.
  - reflexivity.
  - destruct (proj1 PushBack_growth_policy v_10_20_30_40 50%Z
                v_10_20_30_40_well_formed)
      as (v' & Hc & Hm & _ & Hel & _ & Hfull).
    + intros _. reflexivity.
    + exists v'. split_and!; [exact Hc|exact Hm|exact Hel|].
      apply Hfull. reflexivity.
  - cbn. discriminate.
  - destruct (proj2 PushBack_growth_policy [10; 20; 30]%Z)
      as (w & Hc & Hm & Hpow & Hcap & _ & Hel).
    + cbn. discriminate.
    + exists w. split_and!; [exact Hc|exact Hm|exact Hpow|exact Hcap|exact Hel].
Defined.

Lemma Resize_cases_witness :
  well_formed v_10_20_30
  ∧ (capacity_ v_10_20_30 < 6 → 2 * capacity_ v_10_20_30 < SIZE_MODULUS)
  ∧ ∃ v', Resize v_10_20_30 6 = Some v'
      ∧ size_ v' = 6
      ∧ capacity_ v' = 8
      ∧ elements v' = [10; 20; 30; 0; 0; 0]%Z.
Proof.
  split_and!.
  - exact v_10_20_30_well_formed.
  - intros _. reflexivity.
  - destruct (Resize_cases v_10_20_30 6 v_10_20_30_well_formed)
      as (v' & Hr & Hs & _ & _ & Hbig).
    + intros _. reflexivity.
    + destruct Hbig as (Hc & _ & Hel); [reflexivity|].
      exists v'. split_and!; [exact Hr|exact Hs|exact Hc|exact Hel].
Defined.

Lemma copy_assignment_witness :
  (1%positive ≠ 2%positive
   ∧ two_objects !! 2%positive = Some SimpleVector_default
   ∧ two_objects !! 1%positive = Some v_10_20_30
   ∧ well_formed v_10_20_30
   ∧ ∃ l', copy_assign 2%positive 1%positive two_objects
           = Some (<[2%positive := l']> two_objects)
       ∧ elements l' = [10; 20; 30]%Z ∧ size_ l' = 3 ∧ capacity_ l' = 3)
  ∧ copy_assign 1%positive 1%positive two_objects = Some two_objects.
Proof.
  split_and!.
  - discriminate.
  - reflexivity.
  - reflexivity.
  - exact v_10_20_30_well_formed.
  - destruct (proj2 copy_assignment two_objects 2%positive 1%positive
                SimpleVector_default v_10_20_30)
      as (l' & Ha & _ & Hne).
    + discriminate.
    + reflexivity.
    + reflexivity.
    + exact v_10_20_30_well_formed.
    + destruct Hne as (Hel & Hs & Hc); [discriminate|].
      exists l'. split_and!; [exact Ha|exact Hel|exact Hs|exact Hc].
  - exact (proj1 copy_assignment two_objects 1%positive).
Defined.

Lemma At_checked_witness :
  well_formed v_10_20_30
  ∧ At v_10_20_30 1 = Some (v_10_20_30, Slot 1 20%Z)
  ∧ ∃ v', At v_10_20_30 5 = Some (v', ThrowOutOfRange).
Proof.
  split_and!.
  - exact v_10_20_30_well_formed.
  - destruct (proj1 (proj2 (At_checked v_10_20_30 1)) v_10_20_30_well_formed)
      as (x & Hx & Hat); [reflexivity|].
    cbn in Hx. injection Hx as <-. exact Hat.
  - apply (proj1 (At_checked v_10_20_30 5)). discriminate.
Defined.

Lemma comparison_operators_witness :
  well_formed v_10_20_30 ∧ well_formed v_10_20_31
  ∧ ∃ eq lt gt,
      op_eq v_10_20_30 v_10_20_31 = Some eq
      ∧ op_lt v_10_20_30 v_10_20_31 = Some lt
      ∧ op_gt v_10_20_30 v_10_20_31 = Some gt
      ∧ op_ne v_10_20_30 v_10_20_31 = Some (negb eq)
      ∧ op_le v_10_20_30 v_10_20_31 = Some (negb gt)
      ∧ op_ge v_10_20_30 v_10_20_31 = Some (negb lt)
      ∧ (lt = true ↔
           lexicographic_less (elements v_10_20_30) (elements v_10_20_31)).
Proof.
  split_and!.
  - exact v_10_20_30_well_formed.
  - exact v_10_20_31_well_formed.
  - destruct (comparison_operators v_10_20_30 v_10_20_31
                v_10_20_30_well_formed v_10_20_31_well_formed)
      as (eq & lt & gt & He & Hl & Hg & _ & Hlex & Hne & _ & Hle & Hge).
    exists eq, lt, gt.
    split_and!; [exact He|exact Hl|exact Hg|exact Hne|exact Hle|exact Hge
                |exact Hlex].
Defined.

Lemma size_capacity_invariant_witness :
  well_formed v_10_20_30
  ∧ invariant v_10_20_30
  ∧ (∃ v', Insert_move v_10_20_30 1 99%Z = Some (v', 1%nat) ∧ well_formed v')
  ∧ (∃ v', Erase v_10_20_30 2 = Some (v', 2%nat) ∧ well_formed v')
  ∧ (∃ v', Resize v_10_20_30 6 = Some v' ∧ well_formed v')
  ∧ (well_formed v_10_20_30_40
     ∧ ∃ v', Insert_copy v_10_20_30_40 1 99%Z = Some (v', 1%nat)
         ∧ well_formed v').
Proof.
  pose proof (size_capacity_invariant (T := Z)) as
    (Hinv & _ & _ & _ & _ & _ & _ & _ & _ & _ & _ & Hins & _ & Hic & Her & _
     & Hres & _).
  split_and!.
  - exact v_10_20_30_well_formed.
  - exact (Hinv v_10_20_30 v_10_20_30_well_formed).
  - apply (Hins v_10_20_30 1%nat 99%Z v_10_20_30_well_formed).
    + cbn. lia.
    + intros Heq. discriminate Heq.
  - apply (Her v_10_20_30 2%nat v_10_20_30_well_formed). cbn. lia.
  - apply (Hres v_10_20_30 6 v_10_20_30_well_formed).
    + reflexivity.
    + intros _. reflexivity.
  - exact v_10_20_30_40_well_formed.
  - apply (Hic v_10_20_30_40 1%nat 99%Z v_10_20_30_40_well_formed).
    + cbn. lia.
    + intros _. reflexivity.
    + left. reflexivity.
Defined.

(** * Further facts used below *)

Section MoreFacts.
Context {T : Type} `{Element T}.
Implicit Types (v : SimpleVector T).

Lemma At_Slot v index x :
  well_formed v → elements v !! N.to_nat index = Some x →
  At v index = Some (v, Slot (N.to_nat index) x).
Proof.
  intros Hwf Hx. pose proof (elements_length v Hwf) as HE.
  pose proof (lookup_lt_Some _ _ _ Hx) as Hlt.
  unfold At. rewrite decide_True by lia.
  unfold slot_read. unfold elements in Hx.
  rewrite lookup_take_lt in Hx by lia. by rewrite Hx.
Qed.

Lemma fill_loop_None (x : T) fuel : ∀ buf from to,
  (to < from)%nat → fill_loop fuel buf from to x = None.
Proof.
  induction fuel as [|fuel IH]; intros buf from to Hlt; cbn [fill_loop];
    rewrite decide_False by lia; [done|].
  destruct (slot_write buf from x) as [buf'|]; [|done].
  cbn [mbind option_bind]. apply IH. lia.
Qed.

Lemma fill_loop_overrun (x : T) to fuel : ∀ buf from,
  (from ≤ length buf)%nat → (length buf < to)%nat →
  fill_loop fuel buf from to x = None.
Proof.
  induction fuel as [|fuel IH]; intros buf from Hfrom Hto; cbn [fill_loop];
    rewrite decide_False by lia; [done|].
  unfold slot_write. case_decide; [|done]. cbn [mbind option_bind].
  apply IH; rewrite length_insert; lia.
Qed.

Lemma push_all_within (items : list T) : ∀ v,
  well_formed v → size_ v + N.of_nat (length items) ≤ capacity_ v →
  ∃ w, push_all PushBack_copy v items = Some w
    ∧ well_formed w
    ∧ capacity_ w = capacity_ v
    ∧ length (array_ptr_ w) = length (array_ptr_ v)
    ∧ elements w = elements v ++ items.
Proof.
  induction items as [|x items IH]; intros v Hwf Hfit.
  - exists v. cbn [push_all]. by rewrite app_nil_r.
  - cbn [length] in Hfit.
    assert (size_ v < capacity_ v) as Hlt by lia.
    destruct (PushBack_copy_post v x Hwf) as (v' & Hpush & Hwf' & Hel & Hs & Hc);
      [lia|].
    rewrite decide_True in Hc by done.
    assert (length (array_ptr_ v') = length (array_ptr_ v)) as Hl.
    { rewrite PushBack_copy_spare in Hpush by done. simplify_eq.
      cbn. apply length_insert. }
    destruct (IH v' Hwf') as (w & Hall & Hwfw & Hcw & Hlw & Helw); [lia|].
    exists w. cbn [push_all]. rewrite Hpush. cbn [mbind option_bind].
    split_and!; [done..|congruence|congruence|].
    by rewrite Helw, Hel, <- app_assoc.
Qed.

(** The const-lvalue [Insert] in front of the last element, with spare
    capacity: the one-element shift copies the last slot onto itself. *)
Lemma Insert_copy_before_last v value :
  well_formed v → size_ v < capacity_ v → 0 < size_ v →
  Insert_copy v (N.to_nat (size_ v) - 1) value
  = Some ({| array_ptr_ :=
               <[(N.to_nat (size_ v) - 1)%nat := value]> (array_ptr_ v);
             size_ := size_ v + 1; capacity_ := capacity_ v |},
          (N.to_nat (size_ v) - 1)%nat).
Proof.
  intros Hwf Hlt Hpos.
  destruct (well_formed_bounds v Hwf) as (Hsc & Hlen & Hmod).
  pose proof Hwf as (_ & _ & Hcap).
  unfold Insert_copy, cbegin, begin_, end_.
  rewrite Nat.sub_0_r.
  rewrite decide_False by lia. rewrite decide_False by lia.
  cbn [Nat.add].
  replace (N.to_nat (size_ v) - 1 + 1)%nat with (N.to_nat (size_ v)) by lia.
  destruct (N.to_nat (size_ v)) as [|l] eqn:Hl; [lia|].
  rewrite Nat.sub_succ, Nat.sub_0_r.
  rewrite std_copy_backward_within_one by lia. cbn [mbind option_bind].
  rewrite slot_write_Some by lia. cbn [mbind option_bind].
  by rewrite size_add_small by lia.
Qed.

Lemma std_equal_refl (l : list T) :
  (∀ x, elt_eq x x = true) → std_equal l l = true.
Proof.
  intros Hrefl. induction l as [|x l IH]; [done|].
  cbn [std_equal]. by rewrite Hrefl, IH.
Qed.

Lemma std_equal_sym (l1 : list T) : ∀ l2,
  (∀ x y, elt_eq x y = elt_eq y x) → std_equal l1 l2 = std_equal l2 l1.
Proof.
  intros l2 Hsym. revert l2.
  induction l1 as [|x l1 IH]; intros [|y l2]; cbn [std_equal]; try done.
  by rewrite Hsym, IH.
Qed.

Lemma std_equal_trans (l1 : list T) : ∀ l2 l3,
  (∀ x y z, elt_eq x y = true → elt_eq y z = true → elt_eq x z = true) →
  std_equal l1 l2 = true → std_equal l2 l3 = true → std_equal l1 l3 = true.
Proof.
  intros l2 l3 Htrans. revert l2 l3.
  induction l1 as [|x l1 IH]; intros [|y l2] [|z l3]; cbn [std_equal];
    try done.
  rewrite !andb_true_iff. intros [Hxy H12] [Hyz H23]. split.
  - by eapply Htrans.
  - by eapply IH.
Qed.

Lemma std_lexicographical_compare_asym (l1 : list T) : ∀ l2,
  (∀ x y, elt_lt x y = true → elt_lt y x = false) →
  std_lexicographical_compare l1 l2 = true →
  std_lexicographical_compare l2 l1 = false.
Proof.
  intros l2 Hasym. revert l2.
  induction l1 as [|x l1 IH]; intros [|y l2];
    cbn [std_lexicographical_compare]; try done.
  destruct (elt_lt x y) eqn:Hxy.
  - intros _. by rewrite (Hasym _ _ Hxy).
  - destruct (elt_lt y x) eqn:Hyx; [done|]. apply IH.
Qed.

End MoreFacts.

(** * Further properties of the class *)

Section MoreProperties.
Context {T : Type} `{Element T}.


(** X2.  [SimpleVector(size, value)] has size and capacity [size] and
    every element is [value]. *)
Theorem filled_constructor (size : N) (value : T) :
  ∃ v : SimpleVector T,
    SimpleVector_filled size value = Some v
    ∧ GetSize v = size ∧ GetCapacity v = size
    ∧ elements v = replicate (N.to_nat size) value.
Proof.
  rewrite SimpleVector_filled_spec. eexists. split_and!; [done..|].
  unfold elements. cbn. apply take_ge. by rewrite length_replicate.
Qed.

(** X3.  [SimpleVector(std::initializer_list)] holds the listed elements
    in order, with size and capacity equal to their number. *)
Theorem initializer_list_constructor (init : list T) :
  ∃ v : SimpleVector T,
    SimpleVector_init init = Some v
    ∧ elements v = init
    ∧ GetSize v = N.of_nat (length init)
    ∧ GetCapacity v = N.of_nat (length init).
Proof.
  rewrite SimpleVector_init_spec. eexists. split_and!; [done| |done..].
  unfold elements. cbn. apply take_ge. lia.
Qed.

(** X4.  The copy constructor copies the live elements in order and
    allocates exactly that many slots: the copy's capacity is the
    source's size, not its capacity.  When the element [==] is reflexive
    the copy compares equal to the source. *)
Theorem copy_constructor (other : SimpleVector T) :
  well_formed other →
  ∃ v, SimpleVector_copy other = Some v
    ∧ elements v = elements other
    ∧ size_ v = size_ other
    ∧ capacity_ v = size_ other
    ∧ length (array_ptr_ v) = N.to_nat (size_ other)
    ∧ ((∀ x : T, elt_eq x x = true) → op_eq v other = Some true).
Proof.
  intros Hwf. pose proof (elements_length other Hwf) as HE.
  destruct (well_formed_bounds other Hwf) as (Hsc & Hlen & Hmod).
  rewrite SimpleVector_copy_spec by done. eexists. split; [done|].
  cbn [size_ capacity_ array_ptr_].
  assert (well_formed {| array_ptr_ := elements other; size_ := size_ other;
                         capacity_ := size_ other |}) as Hwf'
    by (apply well_formed_intro; lia).
  assert (elements {| array_ptr_ := elements other; size_ := size_ other;
                      capacity_ := size_ other |} = elements other) as Hel.
  { unfold elements at 1. cbn [size_ array_ptr_]. apply take_ge. lia. }
  split_and!; [done..|].
  intros Hrefl. unfold op_eq. rewrite !slots_elements by done.
  cbn [mbind option_bind]. rewrite Hel. by rewrite std_equal_refl.
Qed.

(** X5.  Moving.  The move constructor hands the source's array, size and
    capacity to the new object and leaves the source with no storage,
    size 0 and capacity 0.  Move assignment does the same between two
    distinct objects, touches no third object, and is a no-op on
    self-assignment. *)
Theorem move_leaves_source_empty :
  (∀ other : SimpleVector T,
     array_ptr_ (SimpleVector_move other).1 = array_ptr_ other
     ∧ size_ (SimpleVector_move other).1 = size_ other
     ∧ capacity_ (SimpleVector_move other).1 = capacity_ other
     ∧ (SimpleVector_move other).2 = SimpleVector_default)
  ∧ (∀ (σ : gmap positive (SimpleVector T)) this,
       move_assign this this σ = Some σ)
  ∧ (∀ (σ : gmap positive (SimpleVector T)) this rhs l r,
       this ≠ rhs → σ !! this = Some l → σ !! rhs = Some r →
       ∃ σ', move_assign this rhs σ = Some σ'
         ∧ σ' !! this = Some r
         ∧ σ' !! rhs = Some SimpleVector_default
         ∧ ∀ a, a ≠ this → a ≠ rhs → σ' !! a = σ !! a).
Proof.
  split_and!.
  - intros other. done.
  - intros σ this. unfold move_assign.
    by rewrite decide_False by (intros ?; done).
  - intros σ this rhs l r Hne Hl Hr. unfold move_assign.
    rewrite decide_True by done. rewrite Hl, Hr.
    cbn [mbind option_bind move_assign_distinct ArrayPtr_move].
    eexists. split; [done|]. split_and!.
    + rewrite lookup_insert_eq. by destruct r.
    + rewrite lookup_insert_ne by done. by rewrite lookup_insert_eq.
    + intros a Ha1 Ha2. by rewrite !lookup_insert_ne by done.
Qed.

(** X6.  [Reserve(new_capacity)] keeps the size and the elements and
    leaves capacity [max(capacity_, new_capacity)]: it never shrinks. *)
Theorem Reserve_keeps_contents (v : SimpleVector T) (new_capacity : N) :
  well_formed v →
  ∃ v', Reserve v new_capacity = Some v'
    ∧ elements v' = elements v
    ∧ size_ v' = size_ v
    ∧ capacity_ v' = N.max (capacity_ v) new_capacity
    ∧ (new_capacity ≤ capacity_ v → v' = v).
Proof.
  intros Hwf.
  destruct (Reserve_post v new_capacity Hwf) as (v' & Hres & Hel & Hs & Hc & _).
  exists v'. split_and!; try done.
  intros Hle. unfold Reserve in Hres.
  rewrite decide_False in Hres by lia. by simplify_eq.
Qed.

(** X7.  While the items fit in the spare capacity, [PushBack] (either
    overload) appends them in order without changing the capacity or the
    array's length.  In particular a vector constructed from
    [Reserve(k)] takes up to [k] items at capacity [k]. *)
Theorem PushBack_within_capacity :
  (∀ (v : SimpleVector T) (items : list T),
     well_formed v → size_ v + N.of_nat (length items) ≤ capacity_ v →
     ∃ w, push_all PushBack_copy v items = Some w
       ∧ push_all PushBack_move v items = Some w
       ∧ capacity_ w = capacity_ v
       ∧ length (array_ptr_ w) = length (array_ptr_ v)
       ∧ elements w = elements v ++ items)
  ∧ (∀ (k : N) (items : list T),
       k < SIZE_MODULUS → N.of_nat (length items) ≤ k →
       ∃ v w, SimpleVector_reserved (MakeReserve k) = Some v
         ∧ push_all PushBack_copy v items = Some w
         ∧ capacity_ w = k
         ∧ elements w = items).
Proof.
  split.
  - intros v items Hwf Hfit.
    destruct (push_all_within items v Hwf Hfit) as (w & Hall & _ & Hc & Hl & Hel).
    exists w. rewrite (push_all_ext _ _ PushBack_move_copy). done.
  - intros k items Hk Hfit.
    destruct (SimpleVector_reserved_post (MakeReserve k))
      as (v & Hv & Hs & Hc & Hl).
    cbn in Hc.
    assert (well_formed v) as Hwf.
    { destruct v as [a s c]. cbn in *. subst. apply well_formed_intro; lia. }
    destruct (push_all_within items v Hwf) as (w & Hall & _ & Hcw & _ & Hel);
      [lia|].
    exists v, w. split_and!; [done..|congruence|].
    rewrite Hel. unfold elements. by rewrite Hs.
Qed.

(** X8.  [PopBack] undoes [PushBack]: the elements and the size are those
    before the push (the capacity may have grown).  On an empty vector
    [PopBack] changes nothing. *)
Theorem PushBack_then_PopBack (v : SimpleVector T) (item : T) :
  well_formed v →
  (size_ v = capacity_ v → 2 * capacity_ v < SIZE_MODULUS) →
  (∃ v', PushBack_copy v item = Some v'
     ∧ elements (PopBack v') = elements v
     ∧ size_ (PopBack v') = size_ v
     ∧ capacity_ (PopBack v') = capacity_ v')
  ∧ (size_ v = 0 → PopBack v = v).
Proof.
  intros Hwf Hdbl. split.
  - destruct (PushBack_copy_post v item Hwf Hdbl)
      as (v' & Hpush & Hwf' & Hel & Hs & _).
    destruct (PopBack_size v' Hwf') as (Hps & Hpc & Hpa).
    rewrite decide_False in Hps by lia.
    exists v'. split_and!; [done| |lia|done].
    pose proof (elements_length v Hwf) as HE.
    unfold elements at 1. rewrite Hps, Hpa.
    replace (N.to_nat (size_ v' - 1))
      with (Nat.min (N.to_nat (size_ v)) (N.to_nat (size_ v'))) by lia.
    rewrite <- take_take. fold (elements v'). rewrite Hel.
    by apply take_app_length'.
  - intros Hz. unfold PopBack, IsEmpty. by rewrite bool_decide_true.
Qed.

(** X9.  [Erase(pos)] at a position below the size removes that element
    and closes the gap: the elements before [pos] stay, those after move
    one slot left, the size drops by one, the capacity stays, and the
    returned iterator is [pos]. *)
Theorem Erase_removes (v : SimpleVector T) (pos : nat) :
  well_formed v → (pos < N.to_nat (size_ v))%nat →
  ∃ v', Erase v pos = Some (v', pos)
    ∧ elements v' = take pos (elements v) ++ drop (S pos) (elements v)
    ∧ size_ v' = size_ v - 1
    ∧ capacity_ v' = capacity_ v.
Proof.
  intros Hwf Hpos.
  destruct (Erase_post v pos Hwf Hpos) as (v' & ? & _ & ? & ? & ?).
  by exists v'.
Qed.

(** X10.  The rvalue [Insert] at any position up to the size yields the
    elements before [pos], the value, then the elements from [pos] on;
    it returns [pos], the size grows by one, and the capacity stays when
    there was room and becomes [max(1, 2 * capacity_)] otherwise. *)
Theorem Insert_rvalue_inserts (v : SimpleVector T) (pos : nat) (value : T) :
  well_formed v → (pos ≤ N.to_nat (size_ v))%nat →
  (size_ v = capacity_ v → 2 * capacity_ v < SIZE_MODULUS) →
  ∃ v', Insert_move v pos value = Some (v', pos)
    ∧ elements v' = take pos (elements v) ++ value :: drop pos (elements v)
    ∧ size_ v' = size_ v + 1
    ∧ (size_ v < capacity_ v → capacity_ v' = capacity_ v)
    ∧ (size_ v = capacity_ v → capacity_ v' = N.max 1 (2 * capacity_ v)).
Proof.
  intros Hwf Hpos Hdbl.
  destruct (Insert_move_post v pos value Hwf Hpos Hdbl)
    as (v' & Hins & _ & Hel & Hs & Hc).
  exists v'. split_and!; try done.
  - intros Hlt. by rewrite decide_True in Hc.
  - intros Heq. by rewrite decide_False in Hc by lia.
Qed.

(** X11.  The const-lvalue [Insert] is right when the vector is full (it
    reallocates) and when [pos] is [end()]: the result is the elements
    before [pos], the value, then the elements from [pos] on. *)
Theorem Insert_lvalue_full_or_at_end
    (v : SimpleVector T) (pos : nat) (value : T) :
  well_formed v → (pos ≤ N.to_nat (size_ v))%nat →
  (size_ v = capacity_ v → 2 * capacity_ v < SIZE_MODULUS) →
  size_ v = capacity_ v ∨ pos = N.to_nat (size_ v) →
  ∃ v', Insert_copy v pos value = Some (v', pos)
    ∧ elements v' = take pos (elements v) ++ value :: drop pos (elements v)
    ∧ size_ v' = size_ v + 1.
Proof.
  intros Hwf Hpos Hdbl Hcase.
  destruct (decide (size_ v = capacity_ v)) as [Heq|Hne].
  - destruct (Insert_copy_full_post v pos value Hwf Hpos Heq (Hdbl Heq))
      as (v' & ? & _ & ? & ? & _).
    by exists v'.
  - destruct Hcase as [?| ->]; [done|].
    destruct (well_formed_bounds v Hwf) as (Hsc & Hlen & Hmod).
    pose proof (elements_length v Hwf) as HE.
    rewrite Insert_copy_at_end by (done || lia).
    eexists. split_and!; [done| |done].
    unfold elements at 1. cbn [size_ array_ptr_].
    replace (N.to_nat (size_ v + 1)) with (S (N.to_nat (size_ v))) by lia.
    rewrite (take_S_r _ _ value) by (apply list_lookup_insert_eq; lia).
    rewrite take_insert_ge by lia. fold (elements v).
    rewrite take_ge, drop_ge by lia. done.
Qed.

(** X12.  The const-lvalue [Insert] in front of the last element of a
    vector with spare capacity does not keep that element: the result is
    the elements before it, the value, and then whatever the first spare
    slot held. *)
Theorem Insert_lvalue_before_last (v : SimpleVector T) (value stale : T) :
  well_formed v → size_ v < capacity_ v → 0 < size_ v →
  array_ptr_ v !! N.to_nat (size_ v) = Some stale →
  ∃ v', Insert_copy v (N.to_nat (size_ v) - 1) value
        = Some (v', (N.to_nat (size_ v) - 1)%nat)
    ∧ elements v'
      = take (N.to_nat (size_ v) - 1) (elements v) ++ [value; stale]
    ∧ size_ v' = size_ v + 1
    ∧ capacity_ v' = capacity_ v.
Proof.
  intros Hwf Hlt Hpos Hstale.
  destruct (well_formed_bounds v Hwf) as (Hsc & Hlen & Hmod).
  rewrite Insert_copy_before_last by done.
  eexists. split_and!; [done| |done..].
  unfold elements. cbn [size_ array_ptr_].
  set (n := N.to_nat (size_ v)) in *.
  replace (N.to_nat (size_ v + 1)) with (S n) by lia.
  rewrite (take_S_r _ _ stale)
    by (rewrite list_lookup_insert_ne by lia; done).
  replace n with (S (n - 1)) at 1 by lia.
  rewrite (take_S_r _ _ value) by (apply list_lookup_insert_eq; lia).
  rewrite take_insert_ge by lia.
  rewrite take_take, Nat.min_l by lia.
  by rewrite <- app_assoc.
Qed.

(** X13.  The const-lvalue [Insert] with spare capacity, at a position
    whose suffix is longer than [pos + 1], makes [std::copy_backward]
    step below the start of the array: the call has no defined result. *)
Theorem Insert_lvalue_below_array (v : SimpleVector T) (pos : nat) (value : T) :
  well_formed v → size_ v < capacity_ v →
  (2 * pos + 1 < N.to_nat (size_ v))%nat →
  Insert_copy v pos value = None.
Proof.
  intros Hwf Hlt Hlong. apply Insert_copy_spare_None; [lia|lia|done].
Qed.

(** X14.  Inserting through the rvalue overload and erasing at the same
    position gives back the original elements and size. *)
Theorem Insert_rvalue_then_Erase (v : SimpleVector T) (pos : nat) (value : T) :
  well_formed v → (pos ≤ N.to_nat (size_ v))%nat →
  (size_ v = capacity_ v → 2 * capacity_ v < SIZE_MODULUS) →
  ∃ v1 v2, Insert_move v pos value = Some (v1, pos)
    ∧ Erase v1 pos = Some (v2, pos)
    ∧ elements v2 = elements v ∧ size_ v2 = size_ v.
Proof. apply Insert_move_Erase. Qed.

(** X15.  What was put in can be read back: after [PushBack(item)],
    [At(old size)] is [item]; after the rvalue [Insert(pos, value)],
    [At(pos)] is [value]. *)
Theorem At_reads_back (v : SimpleVector T) (pos : nat) (x : T) :
  well_formed v → (pos ≤ N.to_nat (size_ v))%nat →
  (size_ v = capacity_ v → 2 * capacity_ v < SIZE_MODULUS) →
  (∃ v', PushBack_copy v x = Some v'
     ∧ At v' (size_ v) = Some (v', Slot (N.to_nat (size_ v)) x))
  ∧ (∃ v', Insert_move v pos x = Some (v', pos)
       ∧ At v' (N.of_nat pos) = Some (v', Slot pos x)).
Proof.
  intros Hwf Hpos Hdbl. pose proof (elements_length v Hwf) as HE. split.
  - destruct (PushBack_copy_post v x Hwf Hdbl) as (v' & Hpush & Hwf' & Hel & _).
    exists v'. split; [done|]. apply At_Slot; [done|].
    rewrite Hel. by apply list_lookup_middle.
  - destruct (Insert_move_post v pos x Hwf Hpos Hdbl)
      as (v' & Hins & Hwf' & Hel & _).
    exists v'. split; [done|].
    rewrite <- (Nat2N.id pos) at 2. apply At_Slot; [done|].
    rewrite Hel, Nat2N.id. apply list_lookup_middle.
    rewrite length_take_le; lia.
Qed.

(** X16.  Shrinking with [Resize] and growing back to the old size does
    not bring the cut elements back: the regrown slots hold [Type{}].
    The capacity is unchanged throughout. *)
Theorem Resize_shrink_then_grow (v : SimpleVector T) (n : N) :
  well_formed v → n ≤ size_ v →
  ∃ v1 v2, Resize v n = Some v1
    ∧ Resize v1 (size_ v) = Some v2
    ∧ capacity_ v2 = capacity_ v
    ∧ size_ v2 = size_ v
    ∧ elements v2 = take (N.to_nat n) (elements v)
        ++ replicate (N.to_nat (size_ v - n)) default_value.
Proof.
  intros Hwf Hn.
  destruct (well_formed_bounds v Hwf) as (Hsc & Hlen & Hmod).
  pose proof Hwf as (_ & _ & Hcap).
  destruct (Resize_post v n Hwf) as (v1 & Hr1 & Hs1 & Hshrink & _ & _); [lia|].
  destruct Hshrink as (Hc1 & Ha1 & Hel1); [done|].
  assert (well_formed v1) as Hwf1.
  { destruct v1 as [a s c]. cbn in *. subst. apply well_formed_intro; lia. }
  destruct (Resize_post v1 (size_ v) Hwf1)
    as (v2 & Hr2 & Hs2 & Hshrink2 & Hfit2 & _); [lia|].
  exists v1, v2. split_and!; [done..| | |].
  - destruct (decide (size_ v ≤ size_ v1)).
    + destruct Hshrink2 as (-> & _); [done|]. done.
    + destruct Hfit2 as (-> & _); [lia..|]. done.
  - done.
  - destruct (decide (size_ v ≤ size_ v1)).
    + destruct Hshrink2 as (_ & _ & ->); [done|].
      assert (n = size_ v) as -> by lia.
      rewrite Hel1, N.sub_diag. cbn. rewrite app_nil_r.
      rewrite take_take. f_equal. lia.
    + destruct Hfit2 as (_ & _ & ->); [lia..|].
      by rewrite Hel1, Hs1.
Qed.

(** X17.  No member function other than the assignments lowers the
    capacity: [PushBack], the rvalue [Insert], [Erase], [PopBack],
    [Clear], [Resize] and [Reserve] all leave it at least as large. *)
Theorem capacity_never_decreases (v : SimpleVector T) :
  well_formed v →
  (∀ item, (size_ v = capacity_ v → 2 * capacity_ v < SIZE_MODULUS) →
     ∃ v', PushBack_copy v item = Some v' ∧ PushBack_move v item = Some v'
       ∧ capacity_ v ≤ capacity_ v')
  ∧ (∀ pos value, (pos ≤ N.to_nat (size_ v))%nat →
       (size_ v = capacity_ v → 2 * capacity_ v < SIZE_MODULUS) →
       ∃ v', Insert_move v pos value = Some (v', pos)
         ∧ capacity_ v ≤ capacity_ v')
  ∧ (∀ pos, (pos < N.to_nat (size_ v))%nat →
       ∃ v', Erase v pos = Some (v', pos) ∧ capacity_ v' = capacity_ v)
  ∧ capacity_ (PopBack v) = capacity_ v
  ∧ capacity_ (Clear v) = capacity_ v
  ∧ (∀ new_size,
       (capacity_ v < new_size → 2 * capacity_ v < SIZE_MODULUS) →
       ∃ v', Resize v new_size = Some v' ∧ capacity_ v ≤ capacity_ v')
  ∧ (∀ new_capacity,
       ∃ v', Reserve v new_capacity = Some v' ∧ capacity_ v ≤ capacity_ v').
Proof.
  intros Hwf. split_and!.
  - intros item Hdbl.
    destruct (PushBack_copy_post v item Hwf Hdbl) as (v' & Hp & _ & _ & _ & Hc).
    exists v'. rewrite PushBack_move_copy. split_and!; [done..|].
    rewrite Hc. case_decide; lia.
  - intros pos value Hpos Hdbl.
    destruct (Insert_move_post v pos value Hwf Hpos Hdbl)
      as (v' & Hi & _ & _ & _ & Hc).
    exists v'. split; [done|]. rewrite Hc. case_decide; lia.
  - intros pos Hpos.
    destruct (Erase_post v pos Hwf Hpos) as (v' & ? & _ & _ & _ & ?).
    by exists v'.
  - by destruct (PopBack_size v Hwf) as (_ & ? & _).
  - done.
  - intros new_size Hdbl.
    destruct (Resize_post v new_size Hwf Hdbl)
      as (v' & Hr & _ & Hshrink & Hfit & Hbig).
    exists v'. split; [done|].
    destruct (decide (new_size ≤ size_ v)).
    + destruct Hshrink as (-> & _); [done|]. lia.
    + destruct (decide (new_size ≤ capacity_ v)).
      * destruct Hfit as (-> & _); [lia|done|]. lia.
      * destruct Hbig as (-> & _); lia.
  - intros new_capacity.
    destruct (Reserve_post v new_capacity Hwf) as (v' & Hr & _ & _ & Hc & _).
    exists v'. split; [done|]. lia.
Qed.

(** X18.  [swap] exchanges the two vectors, touches no third object, and
    swapping again restores the store; swapping an object with itself
    changes nothing. *)
Theorem swap_exchanges (σ : gmap positive (SimpleVector T)) this other a b :
  σ !! this = Some a → σ !! other = Some b →
  ∃ σ', swap_at this other σ = Some σ'
    ∧ σ' !! this = Some b
    ∧ σ' !! other = Some a
    ∧ (∀ c, c ≠ this → c ≠ other → σ' !! c = σ !! c)
    ∧ swap_at this other σ' = Some σ
    ∧ (this = other → σ' = σ).
Proof.
  intros Ha Hb. destruct a as [aa sa ca], b as [ab sb cb].
  unfold swap_at at 1. rewrite Ha, Hb. cbn [mbind option_bind swap
    array_ptr_ size_ capacity_].
  eexists. split; [done|].
  assert ((<[this := {| array_ptr_ := ab; size_ := sb; capacity_ := cb |}]>
             (<[other := {| array_ptr_ := aa; size_ := sa; capacity_ := ca |}]>
                σ)) !! other
          = Some {| array_ptr_ := aa; size_ := sa; capacity_ := ca |}) as Hother.
  { destruct (decide (this = other)) as [->|Hne].
    - rewrite lookup_insert_eq. congruence.
    - rewrite lookup_insert_ne by done. by rewrite lookup_insert_eq. }
  split_and!.
  - by rewrite lookup_insert_eq.
  - done.
  - intros c Hc1 Hc2. by rewrite !lookup_insert_ne by done.
  - unfold swap_at. rewrite lookup_insert_eq, Hother.
    cbn [mbind option_bind swap array_ptr_ size_ capacity_]. f_equal.
    apply map_eq. intros i.
    destruct (decide (i = this)) as [->|Hi1]; [by rewrite lookup_insert_eq|].
    rewrite lookup_insert_ne by done.
    destruct (decide (i = other)) as [->|Hi2]; [by rewrite lookup_insert_eq|].
    by rewrite !lookup_insert_ne by done.
  - intros ->. apply map_eq. intros i.
    destruct (decide (i = other)) as [->|Hi].
    + rewrite lookup_insert_eq. congruence.
    + by rewrite !lookup_insert_ne by done.
Qed.

(** X19.  When the element [<] is asymmetric, so is [<] on vectors: no
    vector is less than itself, [a < b] excludes [a > b], and of
    [a <= b] and [a >= b] at least one holds. *)
Theorem less_than_is_strict (a b : SimpleVector T) :
  (∀ x y : T, elt_lt x y = true → elt_lt y x = false) →
  well_formed a → well_formed b →
  op_lt a a = Some false
  ∧ (op_lt a b = Some true → op_gt a b = Some false)
  ∧ (op_le a b = Some true ∨ op_ge a b = Some true).
Proof.
  intros Hasym Ha Hb.
  unfold op_le, op_ge, op_gt, op_lt.
  rewrite !slots_elements by done.
  cbn [mbind option_bind fmap option_fmap option_map].
  pose proof (std_lexicographical_compare_asym (elements a) (elements b) Hasym)
    as Hab.
  pose proof (std_lexicographical_compare_asym (elements a) (elements a) Hasym)
    as Haa.
  split_and!.
  - destruct (std_lexicographical_compare (elements a) (elements a));
      [by rewrite Haa|done].
  - intros [= Hlt]. by rewrite Hab.
  - destruct (std_lexicographical_compare (elements a) (elements b)) eqn:Hlt.
    + left. by rewrite Hab.
    + by right.
Qed.

(** X20.  [==] on vectors is reflexive, symmetric and transitive whenever
    the element [==] is. *)
Theorem equality_is_equivalence (a b c : SimpleVector T) :
  well_formed a → well_formed b → well_formed c →
  ((∀ x : T, elt_eq x x = true) → op_eq a a = Some true)
  ∧ ((∀ x y : T, elt_eq x y = elt_eq y x) → op_eq a b = op_eq b a)
  ∧ ((∀ x y z : T, elt_eq x y = true → elt_eq y z = true → elt_eq x z = true) →
       op_eq a b = Some true → op_eq b c = Some true → op_eq a c = Some true).
Proof.
  intros Ha Hb Hc. unfold op_eq. rewrite !slots_elements by done.
  cbn [mbind option_bind]. split_and!.
  - intros Hrefl. by rewrite std_equal_refl.
  - intros Hsym. by rewrite std_equal_sym.
  - intros Htrans [= Hab] [= Hbc]. f_equal. by eapply std_equal_trans.
Qed.

(** X21.  The private [FillWithDefaultValue(from, to)] sets exactly the
    slots [[from, to)] to [Type{}] and leaves the others.  With [to]
    before [from], or [to] past the end of the array, the loop runs off
    the array. *)
Theorem FillWithDefaultValue_range (buf : list T) (from to : nat) :
  ((from ≤ to)%nat → (to ≤ length buf)%nat →
     FillWithDefaultValue buf from to
     = Some (take from buf ++ replicate (to - from) default_value
               ++ drop to buf))
  ∧ ((to < from)%nat → FillWithDefaultValue buf from to = None)
  ∧ ((from ≤ length buf)%nat → (length buf < to)%nat →
       FillWithDefaultValue buf from to = None).
Proof.
  split_and!.
  - apply FillWithDefaultValue_spec.
  - apply fill_loop_None.
  - apply fill_loop_overrun.
Qed.

(** X22.  [operator[]] and [At] agree below the size.  From the size up
    to the capacity [operator[]] still reads a slot, where [At]
    throws. *)
Theorem subscript_unchecked (v : SimpleVector T) (index : N) :
  well_formed v →
  (index < size_ v →
     ∃ x, subscript v index = Some x
       ∧ At v index = Some (v, Slot (N.to_nat index) x))
  ∧ (size_ v ≤ index → index < capacity_ v →
       is_Some (subscript v index)
       ∧ At v index = Some (v, ThrowOutOfRange)).
Proof.
  intros Hwf. destruct (well_formed_bounds v Hwf) as (Hsc & Hlen & Hmod).
  unfold subscript, slot_read. split.
  - intros Hlt.
    destruct (lookup_lt_is_Some_2 (array_ptr_ v) (N.to_nat index))
      as [x Hx]; [lia|].
    exists x. split; [done|]. apply At_Slot; [done|].
    unfold elements. by rewrite lookup_take_lt by lia.
  - intros Hge Hlt. split.
    + apply lookup_lt_is_Some_2. lia.
    + unfold At. by rewrite decide_False by lia.
Qed.

(** X23.  Assigning an empty vector sets size and capacity to 0 but keeps
    the array; the next [PushBack] then allocates a one-slot array
    instead of using it. *)
Theorem copy_assign_empty_then_PushBack
    (σ : gmap positive (SimpleVector T)) this rhs l r (item : T) :
  this ≠ rhs → σ !! this = Some l → σ !! rhs = Some r → size_ r = 0 →
  ∃ l', copy_assign this rhs σ = Some (<[this := l']> σ)
    ∧ array_ptr_ l' = array_ptr_ l ∧ size_ l' = 0 ∧ capacity_ l' = 0
    ∧ PushBack_copy l' item
      = Some {| array_ptr_ := [item]; size_ := 1; capacity_ := 1 |}.
Proof.
  intros Hne Hl Hr Hempty. unfold copy_assign.
  rewrite decide_True by done. rewrite Hl, Hr.
  cbn [mbind option_bind]. unfold copy_assign_distinct, IsEmpty.
  rewrite bool_decide_true by done. cbn [mbind option_bind Clear array_ptr_].
  eexists. split; [done|]. cbn [array_ptr_ size_ capacity_].
  split_and!; [done..|].
  unfold PushBack_copy. cbn [capacity_]. rewrite decide_True by done.
  by rewrite SimpleVector_sized_spec.
Qed.

(** X24.  [Clear] keeps the storage: on a vector with capacity, the next
    [PushBack] writes slot 0 of the same array and the capacity is
    unchanged. *)
Theorem Clear_then_PushBack (v : SimpleVector T) (item : T) :
  well_formed v → capacity_ v ≠ 0 →
  ∃ v', PushBack_copy (Clear v) item = Some v'
    ∧ PushBack_move (Clear v) item = Some v'
    ∧ array_ptr_ v' = <[0%nat := item]> (array_ptr_ v)
    ∧ elements v' = [item]
    ∧ capacity_ v' = capacity_ v.
Proof.
  intros Hwf Hcap. destruct (well_formed_bounds v Hwf) as (Hsc & Hlen & Hmod).
  rewrite PushBack_move_copy.
  rewrite PushBack_copy_spare by (apply Clear_well_formed || cbn; done || lia).
  eexists. split_and!; [done..| |done].
  unfold elements. cbn.
  destruct (array_ptr_ v) as [|x rest] eqn:Ha; [simpl in Hlen; lia|done].
Qed.

(** X25.  On a well-formed vector [IsEmpty] holds exactly when there are
    no live elements, which is when [begin()] equals [end()];
    [GetSize] counts the live elements and never exceeds
    [GetCapacity]. *)
Theorem size_queries (v : SimpleVector T) :
  well_formed v →
  (IsEmpty v = true ↔ elements v = [])
  ∧ (IsEmpty v = true ↔ begin_ v = end_ v)
  ∧ GetSize v = N.of_nat (length (elements v))
  ∧ GetSize v ≤ GetCapacity v.
Proof.
  intros Hwf. destruct (well_formed_bounds v Hwf) as (Hsc & Hlen & Hmod).
  pose proof (elements_length v Hwf) as HE.
  unfold IsEmpty, begin_, end_, GetSize, GetCapacity. split_and!.
  - rewrite bool_decide_eq_true. split.
    + intros Hz. apply length_zero_iff_nil. lia.
    + intros Hnil. rewrite Hnil in HE. simpl in HE. lia.
  - rewrite bool_decide_eq_true. lia.
  - lia.
  - lia.
Qed.

End MoreProperties.

(** * The further properties at concrete vectors of ints *)

Lemma copy_constructor_witness :
  well_formed v_10_20_30
  ∧ ∃ v, SimpleVector_copy v_10_20_30 = Some v
      ∧ elements v = elements v_10_20_30
      ∧ capacity_ v = 3
      ∧ op_eq v v_10_20_30 = Some true.
Proof.
  split; [exact v_10_20_30_well_formed|].
  destruct (copy_constructor v_10_20_30 v_10_20_30_well_formed)
    as (v & Hc & Hel & _ & Hcap & _ & Heq).
  exists v. split_and!; [exact Hc|exact Hel|exact Hcap|].
  apply Heq. intros x. apply Z.eqb_refl.
Defined.

Lemma move_leaves_source_empty_witness :
  2%positive ≠ 1%positive
  ∧ two_objects !! 2%positive = Some SimpleVector_default
  ∧ two_objects !! 1%positive = Some v_10_20_30
  ∧ ∃ σ', move_assign 2%positive 1%positive two_objects = Some σ'
      ∧ σ' !! 2%positive = Some v_10_20_30
      ∧ σ' !! 1%positive = Some SimpleVector_default.
Proof.
  split_and!; [discriminate|reflexivity|reflexivity|].
  destruct (proj2 (proj2 move_leaves_source_empty) two_objects
              2%positive 1%positive SimpleVector_default v_10_20_30)
    as (σ' & Hm & Ht & Hr & _); [discriminate|reflexivity|reflexivity|].
  exists σ'. split_and!; [exact Hm|exact Ht|exact Hr].
Defined.

Lemma Reserve_keeps_contents_witness :
  well_formed v_10_20_30
  ∧ ∃ v', Reserve v_10_20_30 10 = Some v'
      ∧ elements v' = elements v_10_20_30
      ∧ size_ v' = size_ v_10_20_30
      ∧ capacity_ v' = N.max (capacity_ v_10_20_30) 10
      ∧ (10 ≤ capacity_ v_10_20_30 → v' = v_10_20_30).
Proof.
  split; [exact v_10_20_30_well_formed|].
  exact (Reserve_keeps_contents v_10_20_30 10 v_10_20_30_well_formed).
Defined.

Lemma PushBack_within_capacity_witness :
  (well_formed v_10_20_30
   ∧ size_ v_10_20_30 + N.of_nat (length [40%Z]) ≤ capacity_ v_10_20_30
   ∧ ∃ w, push_all PushBack_copy v_10_20_30 [40%Z] = Some w
       ∧ push_all PushBack_move v_10_20_30 [40%Z] = Some w
       ∧ capacity_ w = capacity_ v_10_20_30
       ∧ length (array_ptr_ w) = length (array_ptr_ v_10_20_30)
       ∧ elements w = elements v_10_20_30 ++ [40%Z])
  ∧ (2 < SIZE_MODULUS ∧ N.of_nat (length [1%Z; 2%Z]) ≤ 2
     ∧ ∃ v w, SimpleVector_reserved (MakeReserve 2) = Some v
         ∧ push_all PushBack_copy v [1%Z; 2%Z] = Some w
         ∧ capacity_ w = 2
         ∧ elements w = [1%Z; 2%Z]).
Proof.
  split_and!.
  - exact v_10_20_30_well_formed.
  - cbn. discriminate.
  - apply (proj1 PushBack_within_capacity v_10_20_30 [40%Z]
             v_10_20_30_well_formed).
    cbn. discriminate.
  - reflexivity.
  - cbn. discriminate.
  - apply (proj2 PushBack_within_capacity 2 [1%Z; 2%Z]).
    + reflexivity.
    + cbn. discriminate.
Defined.

Lemma PushBack_then_PopBack_witness :
  well_formed v_10_20_30_40
  ∧ 2 * capacity_ v_10_20_30_40 < SIZE_MODULUS
  ∧ ∃ v', PushBack_copy v_10_20_30_40 50%Z = Some v'
      ∧ elements (PopBack v') = elements v_10_20_30_40
      ∧ size_ (PopBack v') = size_ v_10_20_30_40
      ∧ capacity_ (PopBack v') = capacity_ v'.
Proof.
  split_and!; [exact v_10_20_30_40_well_formed|reflexivity|].
  apply (PushBack_then_PopBack v_10_20_30_40 50%Z v_10_20_30_40_well_formed).
  intros _. reflexivity.
Defined.

Lemma Erase_removes_witness :
  well_formed v_10_20_30 ∧ (1 < N.to_nat (size_ v_10_20_30))%nat
  ∧ ∃ v', Erase v_10_20_30 1 = Some (v', 1%nat)
      ∧ elements v'
        = take 1 (elements v_10_20_30) ++ drop 2 (elements v_10_20_30)
      ∧ size_ v' = size_ v_10_20_30 - 1
      ∧ capacity_ v' = capacity_ v_10_20_30.
Proof.
  split_and!; [exact v_10_20_30_well_formed|cbn; lia|].
  apply (Erase_removes v_10_20_30 1 v_10_20_30_well_formed). cbn. lia.
Defined.

Lemma Insert_rvalue_inserts_witness :
  well_formed v_10_20_30 ∧ (1 ≤ N.to_nat (size_ v_10_20_30))%nat
  ∧ ∃ v', Insert_move v_10_20_30 1 99%Z = Some (v', 1%nat)
      ∧ elements v' = [10; 99; 20; 30]%Z
      ∧ size_ v' = 4.
Proof.
  split_and!; [exact v_10_20_30_well_formed|cbn; lia|].
  destruct (Insert_rvalue_inserts v_10_20_30 1 99%Z v_10_20_30_well_formed)
    as (v' & Hi & Hel & Hs & _).
  - cbn. lia.
  - intros Heq. discriminate Heq.
  - exists v'. split_and!; [exact Hi|exact Hel|exact Hs].
Defined.

Lemma Insert_lvalue_full_or_at_end_witness :
  well_formed v_10_20_30_40 ∧ (1 ≤ N.to_nat (size_ v_10_20_30_40))%nat
  ∧ 2 * capacity_ v_10_20_30_40 < SIZE_MODULUS
  ∧ size_ v_10_20_30_40 = capacity_ v_10_20_30_40
  ∧ ∃ v', Insert_copy v_10_20_30_40 1 99%Z = Some (v', 1%nat)
      ∧ elements v' = [10; 99; 20; 30; 40]%Z
      ∧ size_ v' = 5.
Proof.
  split_and!;
    [exact v_10_20_30_40_well_formed|cbn; lia|reflexivity|reflexivity|].
  destruct (Insert_lvalue_full_or_at_end v_10_20_30_40 1 99%Z
              v_10_20_30_40_well_formed)
    as (v' & Hi & Hel & Hs).
  - cbn. lia.
  - intros _. reflexivity.
  - left. reflexivity.
  - exists v'. split_and!; [exact Hi|exact Hel|exact Hs].
Defined.

Lemma Insert_lvalue_before_last_witness :
  well_formed v_10_20_30 ∧ size_ v_10_20_30 < capacity_ v_10_20_30
  ∧ 0 < size_ v_10_20_30
  ∧ array_ptr_ v_10_20_30 !! N.to_nat (size_ v_10_20_30) = Some 0%Z
  ∧ ∃ v', Insert_copy v_10_20_30 2 99%Z = Some (v', 2%nat)
      ∧ elements v' = [10; 20; 99; 0]%Z.
Proof.
  split_and!;
    [exact v_10_20_30_well_formed|reflexivity|reflexivity|reflexivity|].
  destruct (Insert_lvalue_before_last v_10_20_30 99%Z 0%Z
              v_10_20_30_well_formed)
    as (v' & Hi & Hel & _); [reflexivity..|].
  exists v'. split; [exact Hi|exact Hel].
Defined.

Lemma Insert_lvalue_below_array_witness :
  well_formed v_10_20_30 ∧ size_ v_10_20_30 < capacity_ v_10_20_30
  ∧ (2 * 0 + 1 < N.to_nat (size_ v_10_20_30))%nat
  ∧ Insert_copy v_10_20_30 0 99%Z = None.
Proof.
  split_and!; [exact v_10_20_30_well_formed|reflexivity|cbn; lia|].
  apply (Insert_lvalue_below_array v_10_20_30 0 99%Z v_10_20_30_well_formed).
  - reflexivity.
  - cbn. lia.
Defined.

Lemma Insert_rvalue_then_Erase_witness :
  well_formed v_10_20_30 ∧ (1 ≤ N.to_nat (size_ v_10_20_30))%nat
  ∧ ∃ v1 v2, Insert_move v_10_20_30 1 99%Z = Some (v1, 1%nat)
      ∧ Erase v1 1 = Some (v2, 1%nat)
      ∧ elements v2 = elements v_10_20_30 ∧ size_ v2 = size_ v_10_20_30.
Proof.
  split_and!; [exact v_10_20_30_well_formed|cbn; lia|].
  apply (Insert_rvalue_then_Erase v_10_20_30 1 99%Z v_10_20_30_well_formed).
  - cbn. lia.
  - intros Heq. discriminate Heq.
Defined.

Lemma At_reads_back_witness :
  well_formed v_10_20_30 ∧ (1 ≤ N.to_nat (size_ v_10_20_30))%nat
  ∧ (∃ v', PushBack_copy v_10_20_30 99%Z = Some v'
       ∧ At v' (size_ v_10_20_30)
         = Some (v', Slot (N.to_nat (size_ v_10_20_30)) 99%Z))
  ∧ (∃ v', Insert_move v_10_20_30 1 99%Z = Some (v', 1%nat)
       ∧ At v' (N.of_nat 1) = Some (v', Slot 1 99%Z)).
Proof.
  split; [exact v_10_20_30_well_formed|]. split; [cbn; lia|].
  apply (At_reads_back v_10_20_30 1 99%Z v_10_20_30_well_formed).
  - cbn. lia.
  - intros Heq. discriminate Heq.
Defined.

Lemma Resize_shrink_then_grow_witness :
  well_formed v_10_20_30 ∧ 1 ≤ size_ v_10_20_30
  ∧ ∃ v1 v2, Resize v_10_20_30 1 = Some v1
      ∧ Resize v1 (size_ v_10_20_30) = Some v2
      ∧ elements v2 = [10; 0; 0]%Z.
Proof.
  split_and!; [exact v_10_20_30_well_formed|discriminate|].
  destruct (Resize_shrink_then_grow v_10_20_30 1 v_10_20_30_well_formed)
    as (v1 & v2 & H1 & H2 & _ & _ & Hel); [discriminate|].
  exists v1, v2. split_and!; [exact H1|exact H2|exact Hel].
Defined.

Lemma capacity_never_decreases_witness :
  well_formed v_10_20_30
  ∧ (∃ v', Resize v_10_20_30 9 = Some v'
       ∧ capacity_ v_10_20_30 ≤ capacity_ v')
  ∧ (∃ v', Erase v_10_20_30 0 = Some (v', 0%nat)
       ∧ capacity_ v' = capacity_ v_10_20_30).
Proof.
  split; [exact v_10_20_30_well_formed|].
  destruct (capacity_never_decreases v_10_20_30 v_10_20_30_well_formed)
    as (_ & _ & Her & _ & _ & Hres & _).
  split.
  - apply (Hres 9). intros _. reflexivity.
  - apply (Her 0%nat). cbn. lia.
Defined.

Lemma swap_exchanges_witness :
  two_objects !! 1%positive = Some v_10_20_30
  ∧ two_objects !! 2%positive = Some SimpleVector_default
  ∧ ∃ σ', swap_at 1%positive 2%positive two_objects = Some σ'
      ∧ σ' !! 1%positive = Some SimpleVector_default
      ∧ σ' !! 2%positive = Some v_10_20_30
      ∧ swap_at 1%positive 2%positive σ' = Some two_objects.
Proof.
  split_and!; [reflexivity|reflexivity|].
  destruct (swap_exchanges two_objects 1%positive 2%positive
              v_10_20_30 SimpleVector_default)
    as (σ' & Hs & H1 & H2 & _ & Hback & _); [reflexivity|reflexivity|].
  exists σ'. split_and!; [exact Hs|exact H1|exact H2|exact Hback].
Defined.

Lemma less_than_is_strict_witness :
  (∀ x y : Z, elt_lt x y = true → elt_lt y x = false)
  ∧ well_formed v_10_20_30 ∧ well_formed v_10_20_31
  ∧ op_lt v_10_20_30 v_10_20_30 = Some false
  ∧ (op_lt v_10_20_30 v_10_20_31 = Some true →
       op_gt v_10_20_30 v_10_20_31 = Some false)
  ∧ (op_le v_10_20_30 v_10_20_31 = Some true
     ∨ op_ge v_10_20_30 v_10_20_31 = Some true).
Proof.
  assert (∀ x y : Z, elt_lt x y = true → elt_lt y x = false) as Hasym.
  { intros x y Hxy. apply Z.ltb_lt in Hxy. apply Z.ltb_ge. lia. }
  split; [exact Hasym|].
  split; [exact v_10_20_30_well_formed|].
  split; [exact v_10_20_31_well_formed|].
  exact (less_than_is_strict v_10_20_30 v_10_20_31 Hasym
           v_10_20_30_well_formed v_10_20_31_well_formed).
Defined.

Lemma equality_is_equivalence_witness :
  well_formed v_10_20_30
  ∧ (∀ x : Z, elt_eq x x = true)
  ∧ op_eq v_10_20_30 v_10_20_30 = Some true
  ∧ (∀ x y : Z, elt_eq x y = elt_eq y x)
  ∧ op_eq v_10_20_30 v_10_20_31 = op_eq v_10_20_31 v_10_20_30.
Proof.
  destruct (equality_is_equivalence v_10_20_30 v_10_20_31 v_10_20_30
              v_10_20_30_well_formed v_10_20_31_well_formed
              v_10_20_30_well_formed)
    as (Hrefl & Hsym & _).
  split_and!.
  - exact v_10_20_30_well_formed.
  - intros x. apply Z.eqb_refl.
  - apply Hrefl. intros x. apply Z.eqb_refl.
  - intros x y. apply Z.eqb_sym.
  - apply Hsym. intros x y. apply Z.eqb_sym.
Defined.

Lemma FillWithDefaultValue_range_witness :
  (1 ≤ 3)%nat ∧ (3 ≤ length [1; 2; 3; 4]%Z)%nat
  ∧ FillWithDefaultValue [1; 2; 3; 4]%Z 1 3 = Some [1; 0; 0; 4]%Z
  ∧ FillWithDefaultValue [1; 2; 3; 4]%Z 3 1 = None
  ∧ FillWithDefaultValue [1; 2; 3; 4]%Z 1 5 = None.
Proof.
  destruct (FillWithDefaultValue_range [1; 2; 3; 4]%Z 1 3) as (Hin & _ & _).
  destruct (FillWithDefaultValue_range [1; 2; 3; 4]%Z 3 1) as (_ & Hback & _).
  destruct (FillWithDefaultValue_range [1; 2; 3; 4]%Z 1 5) as (_ & _ & Hover).
  split_and!.
  - lia.
  - cbn. lia.
  - apply Hin; cbn; lia.
  - apply Hback. lia.
  - apply Hover; cbn; lia.
Defined.

Lemma subscript_unchecked_witness :
  well_formed v_10_20_30
  ∧ (∃ x, subscript v_10_20_30 1 = Some x
       ∧ At v_10_20_30 1 = Some (v_10_20_30, Slot (N.to_nat 1) x))
  ∧ is_Some (subscript v_10_20_30 3)
  ∧ At v_10_20_30 3 = Some (v_10_20_30, ThrowOutOfRange).
Proof.
  destruct (subscript_unchecked v_10_20_30 1 v_10_20_30_well_formed)
    as (Hin & _).
  destruct (subscript_unchecked v_10_20_30 3 v_10_20_30_well_formed)
    as (_ & Hspare).
  split; [exact v_10_20_30_well_formed|].
  split; [apply Hin; reflexivity|].
  apply Hspare; [discriminate|reflexivity].
Defined.

Lemma copy_assign_empty_then_PushBack_witness :
  1%positive ≠ 2%positive
  ∧ two_objects !! 1%positive = Some v_10_20_30
  ∧ two_objects !! 2%positive = Some SimpleVector_default
  ∧ size_ (SimpleVector_default (T := Z)) = 0
  ∧ ∃ l', copy_assign 1%positive 2%positive two_objects
          = Some (<[1%positive := l']> two_objects)
      ∧ array_ptr_ l' = array_ptr_ v_10_20_30
      ∧ size_ l' = 0 ∧ capacity_ l' = 0
      ∧ PushBack_copy l' 7%Z
        = Some {| array_ptr_ := [7%Z]; size_ := 1; capacity_ := 1 |}.
Proof.
  split_and!; [discriminate|reflexivity|reflexivity|reflexivity|].
  apply (copy_assign_empty_then_PushBack two_objects 1%positive 2%positive
           v_10_20_30 SimpleVector_default 7%Z);
    [discriminate|reflexivity|reflexivity|reflexivity].
Defined.

Lemma Clear_then_PushBack_witness :
  well_formed v_10_20_30 ∧ capacity_ v_10_20_30 ≠ 0
  ∧ ∃ v', PushBack_copy (Clear v_10_20_30) 7%Z = Some v'
      ∧ PushBack_move (Clear v_10_20_30) 7%Z = Some v'
      ∧ array_ptr_ v' = <[0%nat := 7%Z]> (array_ptr_ v_10_20_30)
      ∧ elements v' = [7%Z]
      ∧ capacity_ v' = capacity_ v_10_20_30.
Proof.
  split_and!; [exact v_10_20_30_well_formed|discriminate|].
  apply (Clear_then_PushBack v_10_20_30 7%Z v_10_20_30_well_formed).
  discriminate.
Defined.

Lemma size_queries_witness :
  well_formed v_10_20_30
  ∧ (IsEmpty v_10_20_30 = true ↔ elements v_10_20_30 = [])
  ∧ (IsEmpty v_10_20_30 = true ↔ begin_ v_10_20_30 = end_ v_10_20_30)
  ∧ GetSize v_10_20_30 = N.of_nat (length (elements v_10_20_30))
  ∧ GetSize v_10_20_30 ≤ GetCapacity v_10_20_30.
Proof.
  split; [exact v_10_20_30_well_formed|].
  exact (size_queries v_10_20_30 v_10_20_30_well_formed).
Defined.
